(** * Parliament: the member form of [src/App.tsx] and [src/validators.ts]

    A shallow embedding of the record model, the zod schema, the
    create / update / delete handlers of [InnerApp] and the [localStorage]
    snapshot, with the properties the specification states about them.

    Conventions.
    - A JavaScript string is a [string]: the bytes of its UTF-8 text.  The
      literals of the source (Thai prefixes and messages) are kept verbatim.
    - An optional property ([photo?: string]) is an [option]; [undefined] and
      [null] are both [None].
    - [useState] cells are the fields of [State]; an event handler is a
      function on [State].
    - What the program reads from its surroundings (the id generator, the file
      reader, the storage entry) is an explicit argument. *)

From Stdlib Require Import String Ascii List Bool NArith Arith Lia.
From Stdlib Require Import DecimalString DecimalN DecimalPos.
Import ListNotations.
Open Scope string_scope.

(** ** Small JavaScript idioms *)

(** [s || ""] on an optional string. *)
Definition or_empty (o : option string) : string :=
  match o with
  | Some s => s
  | None => ""
  end.

(** [a ?? b]. *)
Definition nullish {A : Type} (a b : option A) : option A :=
  match a with
  | Some x => Some x
  | None => b
  end.

(** Truthiness of a [string | null]: [null] and the empty string are falsy. *)
Definition truthy (e : option string) : bool :=
  match e with
  | Some s => negb (s =? "")
  | None => false
  end.

(** Completion of a computation that may throw. *)
Inductive Completion (A : Type) : Type :=
| Normal (a : A)
| Throw.
Arguments Normal {A} a.
Arguments Throw {A}.

Definition bind {A B : Type} (c : Completion A) (k : A -> Completion B) : Completion B :=
  match c with
  | Normal a => k a
  | Throw => Throw
  end.

(** [try { body } catch { handler }]. *)
Definition try_catch {A : Type} (body : Completion A) (handler : Completion A) : Completion A :=
  match body with
  | Normal a => Normal a
  | Throw => handler
  end.

Notation "x <- c ;; k" := (bind c (fun x => k))
  (at level 61, c at next level, right associativity).

(** ** Types and schema *)

(** The union ["นาย" | "นาง" | "นางสาว" | "อื่นๆ"]. *)
Inductive Prefix : Type := Nai | Nang | NangSao | UenUen.

Definition Prefix_literal (p : Prefix) : string :=
  match p with
  | Nai => "นาย"
  | Nang => "นาง"
  | NangSao => "นางสาว"
  | UenUen => "อื่นๆ"
  end.

(** [type Member]. *)
Module Member.
Record t : Type := mk {
  id : string;
  prefix : Prefix;
  firstName : string;
  lastName : string;
  photo : option string;
  workHistory : string;
  ministerPosition : option string;
  ministry : option string;
  party : string
}.
End Member.
Abbreviation Member := Member.t.

(** A [File] is observed only through [FileReader.readAsDataURL]: [onload]
    with a data URL, or [onerror]. *)
Record File : Type := mkFile { readAsDataURL : option string }.

(** The values held by the form before validation: what the inputs give. *)
Module Draft.
Record t : Type := mk {
  prefix : string;
  firstName : string;
  lastName : string;
  photoFile : option File;
  workHistory : string;
  ministerPosition : option string;
  ministry : option string;
  party : string
}.
End Draft.
Abbreviation Draft := Draft.t.

(** [type MemberFormValues = z.infer<typeof memberSchema>], the parsed output. *)
Module MemberFormValues.
Record t : Type := mk {
  prefix : Prefix;
  firstName : string;
  lastName : string;
  photoFile : option File;
  workHistory : string;
  ministerPosition : option string;
  ministry : option string;
  party : string
}.
End MemberFormValues.
Abbreviation MemberFormValues := MemberFormValues.t.

(** A zod issue: the property it is about and what failed. *)
Inductive ZodIssue : Type :=
| invalid_enum_value (path : string)
| too_small (path : string) (message : string).

(** [z.enum(["นาย", "นาง", "นางสาว", "อื่นๆ"])]. *)
Definition z_enum (s : string) : option Prefix :=
  if s =? "นาย" then Some Nai
  else if s =? "นาง" then Some Nang
  else if s =? "นางสาว" then Some NangSao
  else if s =? "อื่นๆ" then Some UenUen
  else None.

(** [z.string().min(1, message)] at property [path]: the string needs at
    least one code unit. *)
Definition z_string_min1 (path message s : string) : list ZodIssue :=
  if (String.length s <? 1)%nat then [too_small path message] else [].

(** The values the schema gives for a draft it accepts: every field is
    handed on as typed, nothing is trimmed. *)
Definition parsed (d : Draft) (p : Prefix) : MemberFormValues :=
  {| MemberFormValues.prefix := p;
     MemberFormValues.firstName := Draft.firstName d;
     MemberFormValues.lastName := Draft.lastName d;
     MemberFormValues.photoFile := Draft.photoFile d;
     MemberFormValues.workHistory := Draft.workHistory d;
     MemberFormValues.ministerPosition := Draft.ministerPosition d;
     MemberFormValues.ministry := Draft.ministry d;
     MemberFormValues.party := Draft.party d |}.

(** [memberSchema]: [photoFile] is [z.instanceof(File).nullable().optional()]
    and the two ministerial fields are [z.string().optional()], so none of the
    three raises an issue on a draft of the form. *)
Definition memberSchema (d : Draft) : list ZodIssue + MemberFormValues :=
  let issues :=
    ((match z_enum (Draft.prefix d) with
      | Some _ => []
      | None => [invalid_enum_value "prefix"]
      end)
     ++ z_string_min1 "firstName" "กรุณากรอกชื่อ" (Draft.firstName d)
     ++ z_string_min1 "lastName" "กรุณากรอกนามสกุล" (Draft.lastName d)
     ++ z_string_min1 "workHistory" "ใส่ประวัติ/ผลงาน" (Draft.workHistory d)
     ++ z_string_min1 "party" "ใส่ชื่อพรรค" (Draft.party d))%list in
  match issues, z_enum (Draft.prefix d) with
  | [], Some p => inr (parsed d p)
  | _, _ => inl issues
  end.

(** ** Utils *)

(** What [globalThis.crypto?.randomUUID] gives: no such function, a call that
    throws, or a string. *)
Inductive RandomUUID : Type :=
| randomUUID_absent
| randomUUID_throws
| randomUUID_returns (uuid : string).

(** The surroundings [safeUUID] reads: [crypto.randomUUID], [Date.now()] and
    the text of [Math.random().toString(36)]. *)
Record Env : Type := mkEnv {
  crypto_randomUUID : RandomUUID;
  Date_now : N;
  Math_random_toString36 : string
}.

(** [safeUUID]. *)
Definition safeUUID (env : Env) : string :=
  match crypto_randomUUID env with
  | randomUUID_returns uuid => uuid
  | randomUUID_absent | randomUUID_throws =>
      "id_" ++ NilZero.string_of_uint (N.to_uint (Date_now env)) ++ "_"
        ++ substring 2 6 (Math_random_toString36 env)
  end.

(** [fileToDataUrl]: the promise resolves with the data URL or rejects. *)
Definition fileToDataUrl (file : File) : Completion string :=
  match readAsDataURL file with
  | Some url => Normal url
  | None => Throw
  end.

(** ** App *)

Definition initialValues : Draft :=
  {| Draft.prefix := "นาย";
     Draft.firstName := "";
     Draft.lastName := "";
     Draft.photoFile := None;
     Draft.workHistory := "";
     Draft.ministerPosition := Some "";
     Draft.ministry := Some "";
     Draft.party := "" |}.

(** The state cells of [InnerApp]: [members], [editingId], the values of the
    form and [formState.errors]. *)
Record State : Type := mkState {
  members : list Member;
  editingId : option string;
  form : Draft;
  errors : list ZodIssue
}.

Definition ids (ms : list Member) : list string := map Member.id ms.

(** The two states of the controller, as the code tests them:
    [if (editingId)] and [!editingId]. *)
Definition Creating (st : State) : Prop := truthy (editingId st) = false.
Definition Editing (st : State) (i : string) : Prop := editingId st = Some i /\ i <> "".

(** The rule given to the [Controller] of [photoFile]:
    [required: !editingId ? "กรุณาอัปโหลดรูป" : false], applied to a value.
    [None] is no error. *)
Definition photoFile_rules (editing : option string) (value : option File) : option string :=
  if negb (truthy editing) then
    match value with
    | None => Some "กรุณาอัปโหลดรูป"
    | Some _ => None
    end
  else None.

(** The updater of the editing branch of [onSubmit]:
    [prev.map(m => m.id === editingId ? {...m, ...} : m)]. *)
Definition update (editing : string) (values : MemberFormValues) (dataUrl : option string)
    (prev : list Member) : list Member :=
  map (fun m =>
         if Member.id m =? editing then
           {| Member.id := Member.id m;
              Member.prefix := MemberFormValues.prefix values;
              Member.firstName := MemberFormValues.firstName values;
              Member.lastName := MemberFormValues.lastName values;
              Member.photo := nullish dataUrl (Member.photo m);
              Member.workHistory := MemberFormValues.workHistory values;
              Member.ministerPosition := Some (or_empty (MemberFormValues.ministerPosition values));
              Member.ministry := Some (or_empty (MemberFormValues.ministry values));
              Member.party := MemberFormValues.party values |}
         else m) prev.

(** What [update] makes of one record. *)
Definition updated (values : MemberFormValues) (dataUrl : option string) (m m' : Member) : Prop :=
  Member.id m' = Member.id m /\
  Member.prefix m' = MemberFormValues.prefix values /\
  Member.firstName m' = MemberFormValues.firstName values /\
  Member.lastName m' = MemberFormValues.lastName values /\
  Member.workHistory m' = MemberFormValues.workHistory values /\
  Member.ministerPosition m' = Some (or_empty (MemberFormValues.ministerPosition values)) /\
  Member.ministry m' = Some (or_empty (MemberFormValues.ministry values)) /\
  Member.party m' = MemberFormValues.party values /\
  Member.photo m' = match dataUrl with
                    | Some url => Some url
                    | None => Member.photo m
                    end.

(** The updater of the creating branch of [onSubmit]:
    [[...prev, { id: safeUUID(), ... }]]. *)
Definition create (env : Env) (values : MemberFormValues) (dataUrl : option string)
    (prev : list Member) : list Member :=
  (prev ++
  [ {| Member.id := safeUUID env;
       Member.prefix := MemberFormValues.prefix values;
       Member.firstName := MemberFormValues.firstName values;
       Member.lastName := MemberFormValues.lastName values;
       Member.photo := dataUrl;
       Member.workHistory := MemberFormValues.workHistory values;
       Member.ministerPosition := Some (or_empty (MemberFormValues.ministerPosition values));
       Member.ministry := Some (or_empty (MemberFormValues.ministry values));
       Member.party := MemberFormValues.party values |} ])%list.

(** How a submit ends. *)
Inductive SubmitResult : Type :=
| Invalid (issues : list ZodIssue)
| Applied (st' : State)
| Alerted (message : string).

(** The first step of the handler: [dataUrl] stays [undefined] unless
    [values.photoFile] is a [File], which is then read. *)
Definition read_photo (photoFile : option File) : Completion (option string) :=
  match photoFile with
  | Some file => url <- fileToDataUrl file ;; Normal (Some url)
  | None => Normal None
  end.

(** The function given to [handleSubmit]. *)
Definition submitHandler (env : Env) (st : State) (values : MemberFormValues) : SubmitResult :=
  match read_photo (MemberFormValues.photoFile values) with
  | Throw => Alerted "อัปโหลดรูปไม่สำเร็จ กรุณาลองใหม่"
  | Normal dataUrl =>
      match editingId st with
      | Some editing =>
          if negb (editing =? "") then
            Applied {| members := update editing values dataUrl (members st);
                       editingId := None;
                       form := initialValues;
                       errors := [] |}
          else
            Applied {| members := create env values dataUrl (members st);
                       editingId := editingId st;
                       form := initialValues;
                       errors := [] |}
      | None =>
          Applied {| members := create env values dataUrl (members st);
                     editingId := editingId st;
                     form := initialValues;
                     errors := [] |}
      end
  end.

(** [onSubmit = handleSubmit(...)].  The form is built with
    [useForm({ resolver: zodResolver(memberSchema), ... })].  With a resolver,
    react-hook-form validates a submit by running the resolver and nothing
    else: the [rules] of a [Controller] ([photoFile_rules]) are part of the
    built-in validation, which is the other branch of [handleSubmit] and
    cannot be combined with a resolver.  The handler runs when the resolver
    reports no error, on the values the resolver returns. *)
Definition onSubmit (env : Env) (st : State) : SubmitResult :=
  match memberSchema (form st) with
  | inl issues => Invalid issues
  | inr values => submitHandler env st values
  end.

(** The state a submit leaves. *)
Definition state_after (st : State) (r : SubmitResult) : State :=
  match r with
  | Invalid issues =>
      {| members := members st; editingId := editingId st; form := form st; errors := issues |}
  | Applied st' => st'
  | Alerted _ => st
  end.

(** Whether a submit reported a failure instead of applying its mutation. *)
Definition submit_failed (r : SubmitResult) : bool :=
  match r with
  | Applied _ => false
  | Invalid _ | Alerted _ => true
  end.

(** The same handler when it has to wait.  It is suspended at
    [await fileToDataUrl(...)]; until the read ends the user can type, click
    edit, delete or clear.  The handler then goes on with what it captured at
    the click, [editingId] and the parsed values of state [clicked], while the
    updater given to [setMembers] receives the collection of the state [now]
    the page is in by then.  Only the editing branch sets [editingId]. *)
Definition submit_resumes (env : Env) (clicked : State) (values : MemberFormValues)
    (now : State) : SubmitResult :=
  match read_photo (MemberFormValues.photoFile values) with
  | Throw => Alerted "อัปโหลดรูปไม่สำเร็จ กรุณาลองใหม่"
  | Normal dataUrl =>
      match editingId clicked with
      | Some editing =>
          if negb (editing =? "") then
            Applied {| members := update editing values dataUrl (members now);
                       editingId := None;
                       form := initialValues;
                       errors := [] |}
          else
            Applied {| members := create env values dataUrl (members now);
                       editingId := editingId now;
                       form := initialValues;
                       errors := [] |}
      | None =>
          Applied {| members := create env values dataUrl (members now);
                     editingId := editingId now;
                     form := initialValues;
                     errors := [] |}
      end
  end.

(** [onEdit]. *)
Definition onEdit (m : Member) (st : State) : State :=
  {| members := members st;
     editingId := Some (Member.id m);
     form := {| Draft.prefix := Prefix_literal (Member.prefix m);
                Draft.firstName := Member.firstName m;
                Draft.lastName := Member.lastName m;
                Draft.photoFile := None;
                Draft.workHistory := Member.workHistory m;
                Draft.ministerPosition := Some (or_empty (Member.ministerPosition m));
                Draft.ministry := Some (or_empty (Member.ministry m));
                Draft.party := Member.party m |};
     errors := [] |}.

(** The filter of [onDelete]: [prev.filter(m => m.id !== id)]. *)
Definition delete (i : string) (prev : list Member) : list Member :=
  filter (fun m => negb (Member.id m =? i)) prev.

(** [editingId === id]. *)
Definition editing_is (e : option string) (i : string) : bool :=
  match e with
  | Some s => s =? i
  | None => false
  end.

(** [onDelete]. *)
Definition onDelete (i : string) (st : State) : State :=
  if editing_is (editingId st) i then
    {| members := delete i (members st);
       editingId := None;
       form := initialValues;
       errors := [] |}
  else
    {| members := delete i (members st);
       editingId := editingId st;
       form := form st;
       errors := errors st |}.

(** The button that clears the form. *)
Definition onClear (st : State) : State :=
  {| members := members st; editingId := None; form := initialValues; errors := [] |}.

(** ** JSON text

    [JSON.stringify] and [JSON.parse] as ECMA-262 defines them.  A serializer
    takes the text that follows its output as a second argument, so that
    [SerializeX x tail] is the text of [x] followed by [tail]. *)

Definition dquote : ascii := "034"%char.

(** A parsed value.  A number keeps its literal: the member records hold no
    number, and its floating-point value is not needed. *)
#[warnings="-register-all"]
Inductive JSON : Type :=
| JNull
| JBool (b : bool)
| JNumber (literal : string)
| JString (s : string)
| JArray (elements : list JSON)
| JObject (properties : list (string * JSON)).

(** Lowercase hexadecimal digit of [n < 16]. *)
Definition hex_digit (n : N) : ascii :=
  if (n <? 10)%N then ascii_of_N (48 + n) else ascii_of_N (87 + n).

(** QuoteJSONString, one character: the quotation mark, the backslash and
    the control characters are escaped, every other character stands for
    itself. *)
Definition quote_char (c : ascii) (tail : string) : string :=
  let n := N_of_ascii c in
  if (n =? 34)%N then String "\" (String dquote tail)
  else if (n =? 92)%N then String "\" (String "\" tail)
  else if (n =? 8)%N then String "\" (String "b" tail)
  else if (n =? 12)%N then String "\" (String "f" tail)
  else if (n =? 10)%N then String "\" (String "n" tail)
  else if (n =? 13)%N then String "\" (String "r" tail)
  else if (n =? 9)%N then String "\" (String "t" tail)
  else if (n <? 32)%N then
    String "\" (String "u" (String "0" (String "0"
      (String (hex_digit (n / 16)) (String (hex_digit (n mod 16)) tail)))))
  else String c tail.

Fixpoint quote_chars (s tail : string) : string :=
  match s with
  | EmptyString => tail
  | String c r => quote_char c (quote_chars r tail)
  end.

Definition QuoteJSONString (s tail : string) : string :=
  String dquote (quote_chars s (String dquote tail)).

(** *** Reading *)

Definition is_ws (c : ascii) : bool :=
  let n := N_of_ascii c in
  ((n =? 32) || (n =? 9) || (n =? 10) || (n =? 13))%N.

Fixpoint skip_ws (s : string) : string :=
  match s with
  | EmptyString => s
  | String c r => if is_ws c then skip_ws r else s
  end.

Definition hex_value (c : ascii) : option N :=
  let n := N_of_ascii c in
  if ((48 <=? n) && (n <=? 57))%N then Some (n - 48)%N
  else if ((97 <=? n) && (n <=? 102))%N then Some (n - 87)%N
  else if ((65 <=? n) && (n <=? 70))%N then Some (n - 55)%N
  else None.

Definition hex4 (a b c d : ascii) : option N :=
  match hex_value a, hex_value b, hex_value c, hex_value d with
  | Some x, Some y, Some z, Some w => Some (((x * 16 + y) * 16 + z) * 16 + w)%N
  | _, _, _, _ => None
  end.

(** The bytes of a code point. *)
Definition utf8 (cp : N) : string :=
  if (cp <? 128)%N then String (ascii_of_N cp) ""
  else if (cp <? 2048)%N then
    String (ascii_of_N (192 + cp / 64)) (String (ascii_of_N (128 + cp mod 64)) "")
  else if (cp <? 65536)%N then
    String (ascii_of_N (224 + cp / 4096))
      (String (ascii_of_N (128 + (cp / 64) mod 64)) (String (ascii_of_N (128 + cp mod 64)) ""))
  else
    String (ascii_of_N (240 + cp / 262144))
      (String (ascii_of_N (128 + (cp / 4096) mod 64))
         (String (ascii_of_N (128 + (cp / 64) mod 64)) (String (ascii_of_N (128 + cp mod 64)) ""))).

(** What a string literal is made of: a character of the text, or the code
    unit of a [\uXXXX] escape. *)
Inductive CodeUnit : Type :=
| literal (c : ascii)
| escaped (cu : N).

Definition simple_escape (e : ascii) : option ascii :=
  let n := N_of_ascii e in
  if (n =? 34)%N then Some dquote
  else if (n =? 92)%N then Some "\"%char
  else if (n =? 47)%N then Some "/"%char
  else if (n =? 98)%N then Some "008"%char
  else if (n =? 102)%N then Some "012"%char
  else if (n =? 110)%N then Some "010"%char
  else if (n =? 114)%N then Some "013"%char
  else if (n =? 116)%N then Some "009"%char
  else None.

(** The characters of a string literal after its opening quotation mark, up
    to the closing one. *)
Fixpoint parse_units (s : string) : option (list CodeUnit * string) :=
  match s with
  | EmptyString => None
  | String c r =>
      if (c =? dquote)%char then Some ([], r)
      else if (c =? "\")%char then
        match r with
        | EmptyString => None
        | String e r1 =>
            match simple_escape e with
            | Some ch =>
                match parse_units r1 with
                | Some (us, r') => Some (literal ch :: us, r')
                | None => None
                end
            | None =>
                if (e =? "u")%char then
                  match r1 with
                  | String h1 (String h2 (String h3 (String h4 r2))) =>
                      match hex4 h1 h2 h3 h4 with
                      | Some cu =>
                          match parse_units r2 with
                          | Some (us, r') => Some (escaped cu :: us, r')
                          | None => None
                          end
                      | None => None
                      end
                  | _ => None
                  end
                else None
            end
        end
      else if (N_of_ascii c <? 32)%N then None
      else
        match parse_units r with
        | Some (us, r') => Some (literal c :: us, r')
        | None => None
        end
  end.

Definition is_high_surrogate (cu : N) : bool := ((55296 <=? cu) && (cu <=? 56319))%N.
Definition is_low_surrogate (cu : N) : bool := ((56320 <=? cu) && (cu <=? 57343))%N.

(** The string a literal denotes: an escaped surrogate pair is one code
    point. *)
Fixpoint decode_units (us : list CodeUnit) : string :=
  match us with
  | [] => ""
  | literal c :: r => String c (decode_units r)
  | escaped hi :: r =>
      match r with
      | escaped lo :: r' =>
          if is_high_surrogate hi && is_low_surrogate lo then
            utf8 (65536 + (hi - 55296) * 1024 + (lo - 56320)) ++ decode_units r'
          else utf8 hi ++ decode_units r
      | _ => utf8 hi ++ decode_units r
      end
  end.

Definition parse_string (s : string) : option (string * string) :=
  match parse_units s with
  | Some (us, r) => Some (decode_units us, r)
  | None => None
  end.

Definition is_digit (c : ascii) : bool :=
  let n := N_of_ascii c in ((48 <=? n) && (n <=? 57))%N.

Fixpoint digits (s : string) : string * string :=
  match s with
  | EmptyString => ("", s)
  | String c r => if is_digit c then let (d, r') := digits r in (String c d, r') else ("", s)
  end.

Definition parse_int (s : string) : option (string * string) :=
  match s with
  | EmptyString => None
  | String c r =>
      if (c =? "0")%char then Some ("0", r)
      else if is_digit c then Some (digits s)
      else None
  end.

Definition parse_frac (s : string) : option (string * string) :=
  match s with
  | String c r =>
      if (c =? ".")%char then
        match digits r with
        | (EmptyString, _) => None
        | (d, r') => Some (String c d, r')
        end
      else Some ("", s)
  | EmptyString => Some ("", s)
  end.

Definition parse_exp (s : string) : option (string * string) :=
  match s with
  | String c r =>
      if ((c =? "e") || (c =? "E"))%char then
        let (sign, r1) :=
          match r with
          | String c2 r2 => if ((c2 =? "+") || (c2 =? "-"))%char then (String c2 "", r2) else ("", r)
          | EmptyString => ("", r)
          end in
        match digits r1 with
        | (EmptyString, _) => None
        | (d, r') => Some (String c (sign ++ d), r')
        end
      else Some ("", s)
  | EmptyString => Some ("", s)
  end.

(** A number literal: [-? int frac? exp?]. *)
Definition parse_number (s : string) : option (string * string) :=
  let (sign, s1) :=
    match s with
    | String c r => if (c =? "-")%char then ("-", r) else ("", s)
    | EmptyString => ("", s)
    end in
  match parse_int s1 with
  | None => None
  | Some (i, s2) =>
      match parse_frac s2 with
      | None => None
      | Some (f, s3) =>
          match parse_exp s3 with
          | None => None
          | Some (e, s4) => Some (sign ++ i ++ f ++ e, s4)
          end
      end
  end.

(** [strip p s]: [s] without its prefix [p]. *)
Fixpoint strip (p s : string) : option string :=
  match p, s with
  | EmptyString, _ => Some s
  | String a p', String b s' => if (a =? b)%char then strip p' s' else None
  | String _ _, EmptyString => None
  end.

(** One step of the three mutually recursive readers, given the readers
    for what is nested: a value; the elements of an array after its opening
    bracket; the members of an object after its opening brace. *)
Definition value_step
    (elements : string -> option (list JSON * string))
    (members : string -> option (list (string * JSON) * string))
    (s : string) : option (JSON * string) :=
  match skip_ws s with
  | EmptyString => None
  | String c r =>
      if (c =? dquote)%char then
        match parse_string r with
        | Some (str, r') => Some (JString str, r')
        | None => None
        end
      else if (c =? "[")%char then
        match skip_ws r with
        | String c' r' =>
            if (c' =? "]")%char then Some (JArray [], r')
            else
              match elements r with
              | Some (vs, r'') => Some (JArray vs, r'')
              | None => None
              end
        | EmptyString => None
        end
      else if (c =? "{")%char then
        match skip_ws r with
        | String c' r' =>
            if (c' =? "}")%char then Some (JObject [], r')
            else
              match members r with
              | Some (ps, r'') => Some (JObject ps, r'')
              | None => None
              end
        | EmptyString => None
        end
      else if (c =? "t")%char then
        match strip "rue" r with
        | Some r' => Some (JBool true, r')
        | None => None
        end
      else if (c =? "f")%char then
        match strip "alse" r with
        | Some r' => Some (JBool false, r')
        | None => None
        end
      else if (c =? "n")%char then
        match strip "ull" r with
        | Some r' => Some (JNull, r')
        | None => None
        end
      else
        match parse_number (String c r) with
        | Some (lit, r') => Some (JNumber lit, r')
        | None => None
        end
  end.

Definition elements_step
    (value : string -> option (JSON * string))
    (elements : string -> option (list JSON * string))
    (s : string) : option (list JSON * string) :=
  match value s with
  | None => None
  | Some (v, r) =>
      match skip_ws r with
      | EmptyString => None
      | String c r' =>
          if (c =? ",")%char then
            match elements r' with
            | Some (vs, r'') => Some (v :: vs, r'')
            | None => None
            end
          else if (c =? "]")%char then Some ([v], r')
          else None
      end
  end.

Definition members_step
    (value : string -> option (JSON * string))
    (members : string -> option (list (string * JSON) * string))
    (s : string) : option (list (string * JSON) * string) :=
  match skip_ws s with
  | EmptyString => None
  | String q r =>
      if (q =? dquote)%char then
        match parse_string r with
        | None => None
        | Some (k, r1) =>
            match skip_ws r1 with
            | EmptyString => None
            | String colon r2 =>
                if (colon =? ":")%char then
                  match value r2 with
                  | None => None
                  | Some (v, r3) =>
                      match skip_ws r3 with
                      | EmptyString => None
                      | String c r4 =>
                          if (c =? ",")%char then
                            match members r4 with
                            | Some (ps, r5) => Some ((k, v) :: ps, r5)
                            | None => None
                            end
                          else if (c =? "}")%char then Some ([(k, v)], r4)
                          else None
                      end
                  end
                else None
            end
        end
      else None
  end.

(** The readers.  [fuel] bounds the depth of the calls; [JSON_parse] gives
    [2 * length + 2], which no text exhausts ([parse_value_fuel]). *)
Fixpoint parse_value (fuel : nat) (s : string) : option (JSON * string) :=
  match fuel with
  | O => None
  | S fuel' =>
      value_step (fun r => parse_elements fuel' r) (fun r => parse_members fuel' r) s
  end
with parse_elements (fuel : nat) (s : string) : option (list JSON * string) :=
  match fuel with
  | O => None
  | S fuel' =>
      elements_step (fun r => parse_value fuel' r) (fun r => parse_elements fuel' r) s
  end
with parse_members (fuel : nat) (s : string) : option (list (string * JSON) * string) :=
  match fuel with
  | O => None
  | S fuel' =>
      members_step (fun r => parse_value fuel' r) (fun r => parse_members fuel' r) s
  end.

(** [JSON.parse(text)]: [None] is the SyntaxError. *)
Definition JSON_parse (text : string) : option JSON :=
  match parse_value (2 * String.length text + 2) text with
  | Some (v, r) =>
      match skip_ws r with
      | EmptyString => Some v
      | String _ _ => None
      end
  | None => None
  end.

(** A reader that, when it succeeds, leaves less text than it was given. *)
Definition consumes {A : Type} (reader : string -> option (A * string)) : Prop :=
  forall s a r, reader s = Some (a, r) -> String.length r < String.length s.

(** *** Writing the members *)

(** The own properties of a member that [JSON.stringify] writes, in the order
    the object literal of [onSubmit] lists them; a property whose value is
    [undefined] is left out.  The spread of the editing branch keeps that
    order, and reading back ([property]) does not depend on it. *)
Definition optional_property (key : string) (value : option string) : list (string * string) :=
  match value with
  | Some s => [(key, s)]
  | None => []
  end.

Definition Member_properties (m : Member) : list (string * string) :=
  ([("id", Member.id m);
    ("prefix", Prefix_literal (Member.prefix m));
    ("firstName", Member.firstName m);
    ("lastName", Member.lastName m);
    ("workHistory", Member.workHistory m)]
   ++ optional_property "ministerPosition" (Member.ministerPosition m)
   ++ optional_property "ministry" (Member.ministry m)
   ++ [("party", Member.party m)]
   ++ optional_property "photo" (Member.photo m))%list.

(** The members of an object, separated by commas. *)
Fixpoint SerializeProperties (ps : list (string * string)) (tail : string) : string :=
  match ps with
  | [] => tail
  | [(k, v)] => QuoteJSONString k (String ":" (QuoteJSONString v tail))
  | (k, v) :: rest =>
      QuoteJSONString k (String ":" (QuoteJSONString v (String "," (SerializeProperties rest tail))))
  end.

(** SerializeJSONObject on a member. *)
Definition SerializeMember (m : Member) (tail : string) : string :=
  String "{" (SerializeProperties (Member_properties m) (String "}" tail)).

Fixpoint SerializeElements (ms : list Member) (tail : string) : string :=
  match ms with
  | [] => tail
  | [m] => SerializeMember m tail
  | m :: rest => SerializeMember m (String "," (SerializeElements rest tail))
  end.

(** [JSON.stringify(members)]. *)
Definition JSON_stringify (ms : list Member) : string :=
  String "[" (SerializeElements ms "]").

(** *** The parsed value as [Member[]] *)

(** [o[key]]: of two members with one key the later one counts. *)
Fixpoint property (key : string) (ps : list (string * JSON)) : option JSON :=
  match ps with
  | [] => None
  | (k, v) :: rest =>
      match property key rest with
      | Some v' => Some v'
      | None => if k =? key then Some v else None
      end
  end.

(** A property of type [string]. *)
Definition string_property (key : string) (ps : list (string * JSON)) : option string :=
  match property key ps with
  | Some (JString s) => Some s
  | _ => None
  end.

(** A property of type [string | undefined]. *)
Definition optional_string_property (key : string) (ps : list (string * JSON))
    : option (option string) :=
  match property key ps with
  | None => Some None
  | Some (JString s) => Some (Some s)
  | Some _ => None
  end.

(** The value read at type [Member]; [None] when it does not have that
    type. *)
Definition Member_of_JSON (v : JSON) : option Member :=
  match v with
  | JObject ps =>
      match string_property "id" ps,
            option_map z_enum (string_property "prefix" ps),
            string_property "firstName" ps,
            string_property "lastName" ps,
            optional_string_property "photo" ps,
            string_property "workHistory" ps,
            optional_string_property "ministerPosition" ps,
            optional_string_property "ministry" ps,
            string_property "party" ps with
      | Some i, Some (Some p), Some fn, Some ln, Some ph, Some wh, Some mp, Some mn, Some pa =>
          Some {| Member.id := i;
                  Member.prefix := p;
                  Member.firstName := fn;
                  Member.lastName := ln;
                  Member.photo := ph;
                  Member.workHistory := wh;
                  Member.ministerPosition := mp;
                  Member.ministry := mn;
                  Member.party := pa |}
      | _, _, _, _, _, _, _, _, _ => None
      end
  | _ => None
  end.

Fixpoint Members_of_elements (vs : list JSON) : option (list Member) :=
  match vs with
  | [] => Some []
  | v :: rest =>
      match Member_of_JSON v, Members_of_elements rest with
      | Some m, Some ms => Some (m :: ms)
      | _, _ => None
      end
  end.

(** [value as Member[]]. *)
Definition Members_of_JSON (v : JSON) : option (list Member) :=
  match v with
  | JArray vs => Members_of_elements vs
  | _ => None
  end.

(** The members [JSON.parse] builds from written properties. *)
Definition JSON_of_properties (ps : list (string * string)) : list (string * JSON) :=
  map (fun kv => (fst kv, JString (snd kv))) ps.

(** The value [JSON.parse] builds from the text of a member. *)
Definition JSON_of_Member (m : Member) : JSON :=
  JObject (JSON_of_properties (Member_properties m)).

Definition JSON_of_Members (ms : list Member) : JSON :=
  JArray (map JSON_of_Member ms).

(** ** The snapshot in [localStorage] *)

(** The storage as the program sees it: access is refused (every call
    throws), or there is an entry under the key ["members"], or none. *)
Inductive LocalStorage : Type :=
| storage_refused
| storage_entry (raw : option string).

(** [localStorage.getItem("members")]. *)
Definition getItem (ls : LocalStorage) : Completion (option string) :=
  match ls with
  | storage_refused => Throw
  | storage_entry raw => Normal raw
  end.

(** [localStorage.setItem("members", text)].  It throws when access is
    refused, and with a QuotaExceededError when the storage has no room for
    the text; [room] tells for which texts the browser has room. *)
Definition setItem (room : string -> bool) (ls : LocalStorage) (text : string)
    : Completion LocalStorage :=
  match ls with
  | storage_refused => Throw
  | storage_entry _ => if room text then Normal (storage_entry (Some text)) else Throw
  end.

(** [JSON.parse(raw)] as a computation. *)
Definition JSON_parse_or_throw (raw : string) : Completion JSON :=
  match JSON_parse raw with
  | Some v => Normal v
  | None => Throw
  end.

(** The initializer of the [members] state. *)
Definition initial_members (ls : LocalStorage) : Completion JSON :=
  try_catch
    (raw <- getItem ls ;;
     if truthy raw then JSON_parse_or_throw (or_empty raw) else Normal (JArray []))
    (Normal (JArray [])).

(** The effect that follows a change of [members]; a failure is logged and
    leaves the storage as it was. *)
Definition persist (room : string -> bool) (ls : LocalStorage) (ms : list Member)
    : LocalStorage :=
  match setItem room ls (JSON_stringify ms) with
  | Normal ls' => ls'
  | Throw => ls
  end.

(** Serializing and reading back at type [Member[]]. *)
Definition deserialize (text : string) : option (list Member) :=
  match JSON_parse text with
  | Some v => Members_of_JSON v
  | None => None
  end.

(** ** What the schema asks of a stored record *)

(** The constraints of [memberSchema] on the fields a record keeps. *)
Definition satisfies_schema (m : Member) : Prop :=
  Member.firstName m <> "" /\ Member.lastName m <> "" /\
  Member.workHistory m <> "" /\ Member.party m <> "".

(** ** The events of the page *)

(** The states the page can be in after the user acts on it, from a first
    state: typing changes the values of the form and what it reports about
    them, and nothing else; the form is submitted; the edit or the delete
    button of a listed member is clicked; the form is cleared.  Each event
    runs to its end before the next. *)
Inductive reachable (st0 : State) : State -> Prop :=
| reach_start : reachable st0 st0
| reach_input (st : State) (d : Draft) (reported : list ZodIssue) :
    reachable st0 st ->
    reachable st0 {| members := members st;
                     editingId := editingId st;
                     form := d;
                     errors := reported |}
| reach_submit (st : State) (env : Env) :
    reachable st0 st -> reachable st0 (state_after st (onSubmit env st))
| reach_edit (st : State) (m : Member) :
    reachable st0 st -> In m (members st) -> reachable st0 (onEdit m st)
| reach_delete (st : State) (m : Member) :
    reachable st0 st -> In m (members st) -> reachable st0 (onDelete (Member.id m) st)
| reach_clear (st : State) :
    reachable st0 st -> reachable st0 (onClear st).

(** ** The view *)

(** The text of the submit button. *)
Definition submit_label (st : State) : string :=
  if truthy (editingId st) then "บันทึกการแก้ไข" else "เพิ่มสมาชิก".

(** ** The preview of the chosen file *)

(** The object URLs of the document: [URL.createObjectURL] hands out the
    next one, [URL.revokeObjectURL] releases one.  A URL is known by its
    number. *)
Record ObjectURLs : Type := mkObjectURLs { live : list nat; next : nat }.

Definition createObjectURL (u : ObjectURLs) : nat * ObjectURLs :=
  (next u, {| live := next u :: live u; next := S (next u) |}).

Definition revokeObjectURL (url : nat) (u : ObjectURLs) : ObjectURLs :=
  {| live := remove Nat.eq_dec url (live u); next := next u |}.

(** The [preview] state and the cleanup the last run of the effect
    returned: the URL it will revoke, if any. *)
Record Preview : Type := mkPreview { preview : option nat; cleanup : option nat }.

(** The cleanup runs before the next run of the effect and at unmount. *)
Definition run_cleanup (p : Preview) (u : ObjectURLs) : ObjectURLs :=
  match cleanup p with
  | Some url => revokeObjectURL url u
  | None => u
  end.

(** The body of the effect on [file]. *)
Definition preview_effect (file : option File) (u : ObjectURLs) : Preview * ObjectURLs :=
  match file with
  | Some _ =>
      let (url, u') := createObjectURL u in
      ({| preview := Some url; cleanup := Some url |}, u')
  | None => ({| preview := None; cleanup := None |}, u)
  end.

(** A render in which [file] has changed: the old cleanup, then the effect. *)
Definition file_changed (file : option File) (pu : Preview * ObjectURLs) : Preview * ObjectURLs :=
  preview_effect file (run_cleanup (fst pu) (snd pu)).

(** The component from its mount, through the successive values of
    [watch("photoFile")]. *)
Definition mounted (first : option File) (changes : list (option File)) (u : ObjectURLs)
    : Preview * ObjectURLs :=
  fold_left (fun pu file => file_changed file pu) changes (preview_effect first u).

Definition unmount (pu : Preview * ObjectURLs) : ObjectURLs :=
  run_cleanup (fst pu) (snd pu).

(** ** Notions the properties use *)

(** No working [crypto.randomUUID]: [safeUUID] takes its second way. *)
Definition fallback (env : Env) : Prop :=
  crypto_randomUUID env = randomUUID_absent \/ crypto_randomUUID env = randomUUID_throws.

(** Only decimal digits. *)
Fixpoint all_digits (s : string) : bool :=
  match s with
  | EmptyString => true
  | String c r => is_digit c && all_digits r
  end.

(** The record being edited is in the collection. *)
Definition editing_listed (st : State) : Prop :=
  forall i, editingId st = Some i -> In i (ids (members st)).

(** Every live URL was handed out before: the next one is new. *)
Definition fresh (u : ObjectURLs) : Prop := forall x, In x (live u) -> x < next u.

(** What the preview keeps of the URLs [u] it found at its mount: at most
    the URL it shows, which its cleanup will revoke. *)
Definition holds_one (u : ObjectURLs) (pu : Preview * ObjectURLs) : Prop :=
  preview (fst pu) = cleanup (fst pu) /\
  next u <= next (snd pu) /\
  match cleanup (fst pu) with
  | Some url => live (snd pu) = url :: live u /\ next u <= url
  | None => live (snd pu) = live u
  end.

(** ** Sample inputs *)

Definition env0 : Env :=
  {| crypto_randomUUID := randomUUID_absent;
     Date_now := 1700000000000;
     Math_random_toString36 := "0.4fzyo82mvyr" |}.

Definition draft_without_photo : Draft :=
  {| Draft.prefix := "นาย";
     Draft.firstName := "Somchai";
     Draft.lastName := "Sukjai";
     Draft.photoFile := None;
     Draft.workHistory := "MP since 2019";
     Draft.ministerPosition := Some "";
     Draft.ministry := Some "";
     Draft.party := "Demo Party" |}.

Definition somchai (i : string) : Member :=
  {| Member.id := i;
     Member.prefix := Nai;
     Member.firstName := "Somchai";
     Member.lastName := "Sukjai";
     Member.photo := None;
     Member.workHistory := "MP since 2019";
     Member.ministerPosition := Some "";
     Member.ministry := Some "";
     Member.party := "Demo Party" |}.

Definition creating_without_photo : State :=
  {| members := []; editingId := None; form := draft_without_photo; errors := [] |}.

(** A no-break space and an ideographic space, as UTF-8. *)
Definition no_break_space : string := String "194" (String "160" "").
Definition ideographic_space : string := String "227" (String "128" (String "128" "")).

Definition blank_state : State :=
  {| members := [];
     editingId := None;
     form := {| Draft.prefix := "นาง";
                Draft.firstName := " ";
                Draft.lastName := no_break_space;
                Draft.photoFile := None;
                Draft.workHistory := String "009" (String "010" "");
                Draft.ministerPosition := Some "";
                Draft.ministry := Some "";
                Draft.party := ideographic_space |};
     errors := [] |}.

Definition draft_with_photo : Draft :=
  {| Draft.prefix := "นาย";
     Draft.firstName := "Somchai";
     Draft.lastName := "Sukjai";
     Draft.photoFile := Some (mkFile (Some "data:image/png;base64,AAAA"));
     Draft.workHistory := "MP since 2019";
     Draft.ministerPosition := Some "";
     Draft.ministry := Some "";
     Draft.party := "Demo Party" |}.

Definition clash_state : State :=
  {| members := [somchai "id_1700000000000_4fzyo8"];
     editingId := None;
     form := draft_without_photo;
     errors := [] |}.

Definition editing_absent : State :=
  {| members := [somchai "a"];
     editingId := Some "b";
     form := draft_without_photo;
     errors := [] |}.

(** * Properties *)

(** ** Validation *)

Lemma z_string_min1_nonempty (path message s : string) :
  s <> "" -> z_string_min1 path message s = [].
Proof. destruct s; [congruence | reflexivity]. Qed.

Lemma z_string_min1_empty (path message : string) :
  z_string_min1 path message "" = [too_small path message].
Proof. reflexivity. Qed.

Lemma z_enum_literal (p : Prefix) : z_enum (Prefix_literal p) = Some p.
Proof. destruct p; reflexivity. Qed.

Lemma z_enum_sound (s : string) (p : Prefix) : z_enum s = Some p -> s = Prefix_literal p.
Proof.
  unfold z_enum.
  repeat match goal with
         | |- context [?a =? ?b] => destruct (String.eqb_spec a b) as [-> | _]
         end; intros H; inversion H; reflexivity.
Qed.

Lemma memberSchema_accepts (d : Draft) (p : Prefix) :
  z_enum (Draft.prefix d) = Some p ->
  Draft.firstName d <> "" -> Draft.lastName d <> "" ->
  Draft.workHistory d <> "" -> Draft.party d <> "" ->
  memberSchema d = inr (parsed d p).
Proof.
  intros Hp Hf Hl Hw Hy. unfold memberSchema.
  rewrite Hp, !z_string_min1_nonempty by assumption. reflexivity.
Qed.

Lemma memberSchema_inr (d : Draft) (v : MemberFormValues) :
  memberSchema d = inr v ->
  exists p, z_enum (Draft.prefix d) = Some p /\ v = parsed d p /\
            Draft.firstName d <> "" /\ Draft.lastName d <> "" /\
            Draft.workHistory d <> "" /\ Draft.party d <> "".
Proof.
  unfold memberSchema. destruct d as [px fn ln ph wh mp mn pa]; simpl.
  destruct (z_enum px) as [p|]; [|discriminate].
  destruct fn, ln, wh, pa; simpl; try discriminate.
  intros H; inversion H; subst. exists p. repeat split; congruence.
Qed.

Lemma memberSchema_rejects (d : Draft) :
  Draft.firstName d = "" \/ Draft.lastName d = "" \/
  Draft.workHistory d = "" \/ Draft.party d = "" ->
  exists issue issues, memberSchema d = inl (issue :: issues).
Proof.
  unfold memberSchema. destruct d as [px fn ln ph wh mp mn pa]; simpl.
  intros H.
  destruct (z_enum px), fn, ln, wh, pa; simpl;
    try (eexists; eexists; reflexivity).
  destruct H as [H | [H | [H | H]]]; discriminate H.
Qed.

(** C5. The schema rejects a draft whose [firstName], [lastName],
    [workHistory] or [party] is the empty string, with at least one issue;
    it accepts a draft in which the four are non-empty and [prefix] is
    ["นาย"], and the accepted values are those of the draft. *)
Theorem memberSchema_empty_rejected_Nai_accepted (d : Draft) :
  (Draft.firstName d = "" \/ Draft.lastName d = "" \/
   Draft.workHistory d = "" \/ Draft.party d = "" ->
   exists issue issues, memberSchema d = inl (issue :: issues))
  /\
  (Draft.prefix d = "นาย" ->
   Draft.firstName d <> "" /\ Draft.lastName d <> "" /\
   Draft.workHistory d <> "" /\ Draft.party d <> "" ->
   memberSchema d = inr (parsed d Nai)).
Proof.
  split.
  - apply memberSchema_rejects.
  - intros Hp (Hf & Hl & Hw & Hy).
    apply memberSchema_accepts; trivial. rewrite Hp. reflexivity.
Qed.

(** A submit whose draft the schema rejects changes nothing but the
    reported issues. *)
Lemma onSubmit_invalid (env : Env) (st : State) (issues : list ZodIssue) :
  memberSchema (form st) = inl issues ->
  onSubmit env st = Invalid issues /\
  members (state_after st (onSubmit env st)) = members st /\
  editingId (state_after st (onSubmit env st)) = editingId st.
Proof. unfold onSubmit. intros ->. repeat split. Qed.

Lemma onSubmit_creating (env : Env) (st : State) (values : MemberFormValues)
    (dataUrl : option string) :
  Creating st ->
  memberSchema (form st) = inr values ->
  read_photo (MemberFormValues.photoFile values) = Normal dataUrl ->
  onSubmit env st =
  Applied {| members := create env values dataUrl (members st);
             editingId := editingId st;
             form := initialValues;
             errors := [] |}.
Proof.
  unfold Creating, onSubmit, submitHandler. intros Hc -> ->.
  destruct (editingId st) as [e|]; [|reflexivity].
  simpl in Hc. rewrite Hc. reflexivity.
Qed.

Lemma onSubmit_editing (env : Env) (st : State) (i : string) (values : MemberFormValues)
    (dataUrl : option string) :
  Editing st i ->
  memberSchema (form st) = inr values ->
  read_photo (MemberFormValues.photoFile values) = Normal dataUrl ->
  onSubmit env st =
  Applied {| members := update i values dataUrl (members st);
             editingId := None;
             form := initialValues;
             errors := [] |}.
Proof.
  unfold Editing, onSubmit, submitHandler. intros [He Hi] -> ->. rewrite He.
  apply String.eqb_neq in Hi. rewrite Hi. reflexivity.
Qed.

(** [onEdit] enters the editing state of the record, with a draft the
    schema accepts when the record satisfies the schema, and no file. *)
Lemma onEdit_Editing (m : Member) (st : State) :
  Member.id m <> "" ->
  Editing (onEdit m st) (Member.id m) /\
  members (onEdit m st) = members st /\
  Draft.photoFile (form (onEdit m st)) = None.
Proof. intros H. repeat split. exact H. Qed.

Lemma onEdit_draft_valid (m : Member) (st : State) :
  Member.firstName m <> "" -> Member.lastName m <> "" ->
  Member.workHistory m <> "" -> Member.party m <> "" ->
  memberSchema (form (onEdit m st)) =
  inr (parsed (form (onEdit m st)) (Member.prefix m)).
Proof.
  intros Hf Hl Hw Hy. apply memberSchema_accepts; trivial.
  simpl. apply z_enum_literal.
Qed.

Lemma onClear_Creating (st : State) :
  Creating (onClear st) /\ form (onClear st) = initialValues /\
  members (onClear st) = members st.
Proof. repeat split. Qed.

(** ** The photo at creation *)

(** The schema never asks for a photo: a valid draft without an image is
    applied in either state of the controller. *)
Lemma onSubmit_without_photo_applied (env : Env) (st : State) (values : MemberFormValues) :
  memberSchema (form st) = inr values ->
  MemberFormValues.photoFile values = None ->
  submit_failed (onSubmit env st) = false.
Proof.
  unfold onSubmit, submitHandler. intros -> ->. simpl.
  destruct (editingId st) as [e|]; [destruct (negb (e =? ""))|]; reflexivity.
Qed.

(** C4, at the input where the code departs from it.  While creating, the
    rule of the photo field asks for an image, yet the submit of a draft
    without one is applied: the collection gains a record with no photo. *)
Theorem create_without_photo_is_applied :
  Creating creating_without_photo /\
  photoFile_rules (editingId creating_without_photo)
                  (Draft.photoFile (form creating_without_photo))
  = Some "กรุณาอัปโหลดรูป" /\
  onSubmit env0 creating_without_photo =
  Applied {| members := [somchai "id_1700000000000_4fzyo8"];
             editingId := None;
             form := initialValues;
             errors := [] |}.
Proof. repeat split. Qed.

(** ** Create *)

Lemma ids_app (l1 l2 : list Member) : ids (l1 ++ l2) = (ids l1 ++ ids l2)%list.
Proof. apply map_app. Qed.

Lemma NoDup_snoc {A : Type} (l : list A) (x : A) :
  NoDup l -> ~ In x l -> NoDup (l ++ [x]).
Proof.
  induction 1 as [|y l Hy Hl IH]; simpl; intros Hx.
  - constructor; [intros [] | constructor].
  - constructor.
    + rewrite in_app_iff. simpl. intros [H | [H | []]]; [auto | subst; auto].
    + apply IH. auto.
Qed.

(** C1 as stated fails: the id of the new record is whatever [safeUUID]
    returns, and nothing compares it with the ids in the collection.  With no
    [crypto.randomUUID], a clock reading 1700000000000 and a random text
    ["0.4fzyo82mvyr"], a collection that holds the id
    ["id_1700000000000_4fzyo8"] gains a second record with that id. *)
Lemma create_id_can_clash :
  ~ (forall (env : Env) (st st' : State) (values : MemberFormValues),
        Creating st ->
        memberSchema (form st) = inr values ->
        onSubmit env st = Applied st' ->
        exists m, members st' = (members st ++ [m])%list /\
                  ~ In (Member.id m) (ids (members st))).
Proof.
  intros H.
  destruct (H env0 clash_state
              {| members := [somchai "id_1700000000000_4fzyo8";
                             somchai "id_1700000000000_4fzyo8"];
                 editingId := None; form := initialValues; errors := [] |}
              (parsed draft_without_photo Nai)
              eq_refl eq_refl eq_refl) as [m [Hm Hn]].
  simpl in Hm. inversion Hm; subst m. apply Hn. simpl. left. reflexivity.
Qed.

(** C1, amended.  A create appends exactly one record, built from the
    draft, whose id is the string [safeUUID] returns.  That id differs from
    every id of the collection exactly when the generated string is not
    among them, and then distinct ids stay distinct. *)
Theorem create_appends_generated_id (env : Env) (st : State) (values : MemberFormValues)
    (dataUrl : option string) :
  Creating st ->
  memberSchema (form st) = inr values ->
  read_photo (MemberFormValues.photoFile values) = Normal dataUrl ->
  exists m st',
    onSubmit env st = Applied st' /\
    members st' = (members st ++ [m])%list /\
    Member.id m = safeUUID env /\
    Member.photo m = dataUrl /\
    (Forall (fun x => Member.id x <> Member.id m) (members st)
     <-> ~ In (safeUUID env) (ids (members st))) /\
    (~ In (safeUUID env) (ids (members st)) ->
     NoDup (ids (members st)) -> NoDup (ids (members st'))).
Proof.
  intros Hc Hv Hr. rewrite (onSubmit_creating env st values dataUrl Hc Hv Hr).
  eexists. eexists. split; [reflexivity|]. unfold create; simpl.
  split; [reflexivity|]. split; [reflexivity|]. split; [reflexivity|]. split.
  - rewrite Forall_forall. unfold ids. rewrite in_map_iff. split.
    + intros H [x [Hx Hin]]. exact (H x Hin Hx).
    + intros H x Hin Hx. apply H. exists x. auto.
  - intros Hfresh Hnd. rewrite ids_app. simpl. apply NoDup_snoc; assumption.
Qed.

Lemma create_appends_generated_id_witness :
  Creating creating_without_photo /\
  memberSchema (form creating_without_photo) = inr (parsed draft_without_photo Nai) /\
  read_photo (MemberFormValues.photoFile (parsed draft_without_photo Nai)) = Normal None /\
  exists m st',
    onSubmit env0 creating_without_photo = Applied st' /\
    members st' = [m] /\
    Member.id m = "id_1700000000000_4fzyo8" /\
    Member.photo m = None /\
    (Forall (fun x => Member.id x <> Member.id m) [] <-> ~ In (safeUUID env0) []) /\
    (~ In (safeUUID env0) [] -> NoDup (@nil string) -> NoDup (ids (members st'))).
Proof.
  repeat (split; [reflexivity|]).
  exact (create_appends_generated_id env0 creating_without_photo
           (parsed draft_without_photo Nai) None eq_refl eq_refl eq_refl).
Defined.

(** ** Update *)

Lemma update_length (i : string) (values : MemberFormValues) (dataUrl : option string)
    (prev : list Member) :
  length (update i values dataUrl prev) = length prev.
Proof. apply length_map. Qed.

Lemma update_ids (i : string) (values : MemberFormValues) (dataUrl : option string)
    (prev : list Member) :
  ids (update i values dataUrl prev) = ids prev.
Proof.
  unfold ids, update. rewrite map_map. apply map_ext.
  intros m. destruct (Member.id m =? i); reflexivity.
Qed.

(** C2. [update] keeps the collection's length and order; at each position
    a record with another id is unchanged, and a record with the given id
    keeps its [id], takes every other field from the draft, and keeps its
    [photo] when the draft brings no new image.  It is what a valid submit
    applies while the record with that id is being edited. *)
Theorem update_overwrites_matching_record (i : string) (values : MemberFormValues)
    (dataUrl : option string) (prev : list Member) :
  length (update i values dataUrl prev) = length prev /\
  (forall (n : nat) (m : Member),
      nth_error prev n = Some m ->
      exists m',
        nth_error (update i values dataUrl prev) n = Some m' /\
        Member.id m' = Member.id m /\
        (Member.id m <> i -> m' = m) /\
        (Member.id m = i -> updated values dataUrl m m')) /\
  (forall (env : Env) (st : State),
      Editing st i ->
      members st = prev ->
      memberSchema (form st) = inr values ->
      read_photo (MemberFormValues.photoFile values) = Normal dataUrl ->
      (MemberFormValues.photoFile values = None -> dataUrl = None) /\
      onSubmit env st =
      Applied {| members := update i values dataUrl prev;
                 editingId := None;
                 form := initialValues;
                 errors := [] |}).
Proof.
  split; [apply update_length|]. split.
  - intros n m Hn. unfold update. rewrite nth_error_map, Hn. simpl.
    destruct (String.eqb_spec (Member.id m) i) as [He | He].
    + eexists. split; [reflexivity|]. split; [reflexivity|]. split; [congruence|].
      intros _. unfold updated; simpl. destruct dataUrl; repeat split.
    + exists m. repeat split; congruence.
  - intros env st He Hm Hv Hr. split.
    + intros Hp. rewrite Hp in Hr. simpl in Hr. congruence.
    + rewrite (onSubmit_editing env st i values dataUrl He Hv Hr), Hm. reflexivity.
Qed.

Lemma update_absent (i : string) (values : MemberFormValues) (dataUrl : option string)
    (prev : list Member) :
  ~ In i (ids prev) -> update i values dataUrl prev = prev.
Proof.
  unfold update. induction prev as [|m prev IH]; simpl; intros H; [reflexivity|].
  destruct (String.eqb_spec (Member.id m) i) as [He | He].
  - exfalso. apply H. left. exact He.
  - f_equal. apply IH. intros Hin. apply H. right. exact Hin.
Qed.

(** C6 as stated fails: with the record ["a"] alone in the collection, a
    valid submit while [editingId] is ["b"] reports no failure. *)
Lemma update_absent_reports_nothing :
  ~ (forall (env : Env) (st : State) (i : string) (values : MemberFormValues),
        Editing st i ->
        ~ In i (ids (members st)) ->
        memberSchema (form st) = inr values ->
        submit_failed (onSubmit env st) = true).
Proof.
  intros H.
  assert (Hf : submit_failed (onSubmit env0 editing_absent) = true).
  { apply (H env0 editing_absent "b" (parsed draft_without_photo Nai)).
    - split; [reflexivity | discriminate].
    - simpl. intros [Hab | []]. discriminate Hab.
    - reflexivity. }
  discriminate Hf.
Qed.

(** C6, amended.  For an id that no record has, the update signals nothing:
    the submit leaves the collection as it was, and when the image (if any)
    can be read it completes, back in the creating state with the draft
    reset. *)
Theorem update_absent_leaves_collection (env : Env) (st : State) (i : string)
    (values : MemberFormValues) :
  Editing st i ->
  ~ In i (ids (members st)) ->
  memberSchema (form st) = inr values ->
  members (state_after st (onSubmit env st)) = members st /\
  forall dataUrl,
    read_photo (MemberFormValues.photoFile values) = Normal dataUrl ->
    onSubmit env st =
    Applied {| members := members st;
               editingId := None;
               form := initialValues;
               errors := [] |}.
Proof.
  intros He Hi Hv.
  assert (Happlied : forall dataUrl,
             read_photo (MemberFormValues.photoFile values) = Normal dataUrl ->
             onSubmit env st =
             Applied {| members := members st; editingId := None;
                        form := initialValues; errors := [] |}).
  { intros dataUrl Hr. rewrite (onSubmit_editing env st i values dataUrl He Hv Hr).
    rewrite update_absent by assumption. reflexivity. }
  split; [|exact Happlied].
  destruct (read_photo (MemberFormValues.photoFile values)) as [dataUrl|] eqn:Hr.
  - rewrite (Happlied dataUrl eq_refl). reflexivity.
  - unfold onSubmit, submitHandler. rewrite Hv, Hr. reflexivity.
Qed.

Lemma update_absent_leaves_collection_witness :
  Editing editing_absent "b" /\
  ~ In "b" (ids (members editing_absent)) /\
  memberSchema (form editing_absent) = inr (parsed draft_without_photo Nai) /\
  members (state_after editing_absent (onSubmit env0 editing_absent)) = [somchai "a"] /\
  forall dataUrl,
    read_photo None = Normal dataUrl ->
    onSubmit env0 editing_absent =
    Applied {| members := [somchai "a"];
               editingId := None;
               form := initialValues;
               errors := [] |}.
Proof.
  assert (He : Editing editing_absent "b") by (split; [reflexivity | discriminate]).
  assert (Hi : ~ In "b" (ids (members editing_absent))).
  { simpl. intros [Hab | []]. discriminate Hab. }
  split; [exact He|]. split; [exact Hi|]. split; [reflexivity|].
  exact (update_absent_leaves_collection env0 editing_absent "b"
           (parsed draft_without_photo Nai) He Hi eq_refl).
Defined.

(** ** Delete *)

Lemma delete_In (i : string) (prev : list Member) (m : Member) :
  In m (delete i prev) <-> In m prev /\ Member.id m <> i.
Proof.
  unfold delete. rewrite filter_In, negb_true_iff, String.eqb_neq. reflexivity.
Qed.

Lemma delete_absent (i : string) (prev : list Member) :
  ~ In i (ids prev) -> delete i prev = prev.
Proof.
  unfold delete. induction prev as [|m prev IH]; simpl; intros H; [reflexivity|].
  destruct (String.eqb_spec (Member.id m) i) as [He | He]; simpl.
  - exfalso. apply H. left. exact He.
  - f_equal. apply IH. intros Hin. apply H. right. exact Hin.
Qed.

Lemma delete_not_In (i : string) (prev : list Member) : ~ In i (ids (delete i prev)).
Proof.
  unfold ids. rewrite in_map_iff. intros [m [Hm Hin]].
  apply delete_In in Hin. tauto.
Qed.

Lemma delete_idempotent (i : string) (prev : list Member) :
  delete i (delete i prev) = delete i prev.
Proof. apply delete_absent, delete_not_In. Qed.

Lemma delete_app (i : string) (l1 l2 : list Member) :
  delete i (l1 ++ l2) = (delete i l1 ++ delete i l2)%list.
Proof. apply filter_app. Qed.

Lemma delete_cons (i : string) (m : Member) (prev : list Member) :
  delete i (m :: prev) = if Member.id m =? i then delete i prev else m :: delete i prev.
Proof. unfold delete. simpl. destruct (Member.id m =? i); reflexivity. Qed.

Lemma delete_unique (i : string) (prev : list Member) :
  NoDup (ids prev) -> In i (ids prev) ->
  exists l1 m l2,
    prev = (l1 ++ m :: l2)%list /\ Member.id m = i /\ delete i prev = (l1 ++ l2)%list.
Proof.
  induction prev as [|m prev IH]; intros Hnd Hin; simpl in Hnd, Hin; [contradiction|].
  inversion Hnd as [|x l Hx Hl]; subst. rewrite delete_cons.
  destruct (String.eqb_spec (Member.id m) i) as [He | He].
  - exists [], m, prev. simpl. repeat split; trivial.
    apply delete_absent. rewrite <- He. exact Hx.
  - destruct Hin as [Hin | Hin]; [contradiction|].
    destruct (IH Hl Hin) as (l1 & m0 & l2 & Hp & Hm & Hd).
    exists (m :: l1), m0, l2. simpl. repeat split; [congruence | assumption |].
    rewrite Hd. reflexivity.
Qed.

(** C3 as stated fails: [delete] filters, so of two records that share the
    id ["a"] it removes both. *)
Lemma delete_removes_every_match :
  ~ (forall (prev : list Member) (i : string),
        In i (ids prev) -> S (length (delete i prev)) = length prev).
Proof.
  intros H.
  specialize (H [somchai "a"; somchai "a"] "a" (or_introl eq_refl)).
  discriminate H.
Qed.

Lemma delete_length_count (i : string) (prev : list Member) :
  length (delete i prev) + count_occ string_dec (ids prev) i = length prev.
Proof.
  induction prev as [|m prev IH]; [reflexivity|].
  rewrite delete_cons. simpl ids. simpl count_occ. simpl length.
  destruct (string_dec (Member.id m) i) as [He | He].
  - apply String.eqb_eq in He. rewrite He. lia.
  - apply String.eqb_neq in He. rewrite He. simpl. lia.
Qed.

(** C3, amended.  For every collection, [delete] removes every record with
    the given id and keeps the others, each once and in order: it leaves no
    record with the id, it removes as many records as have the id, and it
    works through the collection piece by piece.  In a collection whose ids
    are pairwise distinct that is exactly one record when some record has the
    id.  When no record has the id the collection is unchanged; deleting
    twice is deleting once. *)
Theorem delete_removes_one_when_ids_distinct (prev : list Member) (i : string) :
  (forall m, In m (delete i prev) <-> In m prev /\ Member.id m <> i) /\
  length (delete i prev) + count_occ string_dec (ids prev) i = length prev /\
  (forall l1 m l2,
      prev = (l1 ++ m :: l2)%list ->
      delete i prev =
      (delete i l1 ++ (if Member.id m =? i then [] else [m]) ++ delete i l2)%list) /\
  (NoDup (ids prev) -> In i (ids prev) ->
   exists l1 m l2,
     prev = (l1 ++ m :: l2)%list /\ Member.id m = i /\ delete i prev = (l1 ++ l2)%list) /\
  (~ In i (ids prev) -> delete i prev = prev) /\
  delete i (delete i prev) = delete i prev.
Proof.
  split; [intros m; apply delete_In|].
  split; [apply delete_length_count|].
  split; [|split; [|split]].
  - intros l1 m l2 ->. rewrite delete_app, delete_cons.
    destruct (Member.id m =? i); reflexivity.
  - apply delete_unique.
  - apply delete_absent.
  - apply delete_idempotent.
Qed.

Lemma delete_removes_one_when_ids_distinct_witness :
  NoDup (ids [somchai "a"; somchai "b"]) /\
  In "b" (ids [somchai "a"; somchai "b"]) /\
  (exists l1 m l2,
      [somchai "a"; somchai "b"] = (l1 ++ m :: l2)%list /\ Member.id m = "b" /\
      delete "b" [somchai "a"; somchai "b"] = (l1 ++ l2)%list) /\
  length (delete "a" [somchai "a"; somchai "b"; somchai "a"]) + 2 = 3 /\
  ~ In "a" (ids (delete "a" [somchai "a"; somchai "b"; somchai "a"])).
Proof.
  assert (Hnd : NoDup (ids [somchai "a"; somchai "b"])).
  { simpl. constructor.
    - simpl. intros [H | []]. discriminate H.
    - constructor; [intros [] | constructor]. }
  assert (Hin : In "b" (ids [somchai "a"; somchai "b"])) by (right; left; reflexivity).
  split; [exact Hnd|]. split; [exact Hin|]. split.
  - exact (proj1 (proj2 (proj2 (proj2
             (delete_removes_one_when_ids_distinct [somchai "a"; somchai "b"] "b"))))
             Hnd Hin).
  - split.
    + exact (proj1 (proj2
               (delete_removes_one_when_ids_distinct
                  [somchai "a"; somchai "b"; somchai "a"] "a"))).
    + intros H. unfold ids in H. apply in_map_iff in H. destruct H as [m [Hm Hd]].
      apply (proj1 (delete_removes_one_when_ids_distinct
                      [somchai "a"; somchai "b"; somchai "a"] "a") m) in Hd.
      exact (proj2 Hd Hm).
Defined.

(** C9. [onDelete] removes the records with the given id and keeps the
    others; when that id is the one being edited the controller goes back to
    creating with the draft reset to [initialValues]; otherwise [editingId]
    and the draft are left as they were. *)
Theorem onDelete_resets_editing_of_deleted (st : State) (i : string) :
  (forall m, In m (members (onDelete i st)) <-> In m (members st) /\ Member.id m <> i) /\
  ~ In i (ids (members (onDelete i st))) /\
  (editingId st = Some i ->
   editingId (onDelete i st) = None /\ Creating (onDelete i st) /\
   form (onDelete i st) = initialValues) /\
  (editingId st <> Some i ->
   editingId (onDelete i st) = editingId st /\ form (onDelete i st) = form st).
Proof.
  assert (Hm : members (onDelete i st) = delete i (members st)).
  { unfold onDelete. destruct (editing_is (editingId st) i); reflexivity. }
  rewrite Hm. split; [|split; [|split]].
  - intros m. apply delete_In.
  - apply delete_not_In.
  - intros He. unfold onDelete, Creating. rewrite He. simpl.
    rewrite String.eqb_refl. simpl. repeat split.
  - intros He. unfold onDelete.
    destruct (editingId st) as [e|] eqn:Ee; simpl; [|split; reflexivity].
    destruct (String.eqb_spec e i) as [-> | Hne]; [congruence|].
    simpl. split; reflexivity.
Qed.

(** ** The snapshot *)

(** C8. The initializer of [members] always completes normally, whatever
    the storage holds; when reading the entry throws, when there is no entry
    and when [JSON.parse] rejects the text, its value is the empty array. *)
Theorem initial_members_never_throws (ls : LocalStorage) :
  exists v,
    initial_members ls = Normal v /\
    (getItem ls = Throw \/ getItem ls = Normal None \/
     (exists raw, getItem ls = Normal (Some raw) /\ JSON_parse raw = None) ->
     v = JArray []).
Proof.
  destruct ls as [|[raw|]]; unfold initial_members; simpl.
  - exists (JArray []). split; reflexivity.
  - destruct (negb (raw =? "")).
    + unfold JSON_parse_or_throw. destruct (JSON_parse raw) as [v|] eqn:Hp; simpl.
      * exists v. split; [reflexivity|].
        intros [H | [H | [raw' [H1 H2]]]]; try discriminate.
        inversion H1; subst. congruence.
      * exists (JArray []). split; reflexivity.
    + exists (JArray []). split; reflexivity.
  - exists (JArray []). split; reflexivity.
Qed.

(** *** Every reader consumes text *)

Lemma skip_ws_length (s : string) : String.length (skip_ws s) <= String.length s.
Proof.
  induction s as [|c s IH]; simpl; [lia|].
  destruct (is_ws c); simpl; lia.
Qed.

Lemma parse_units_length (n : nat) :
  forall s us r,
    String.length s <= n -> parse_units s = Some (us, r) ->
    String.length r < String.length s.
Proof.
  induction n as [|n IH]; intros s us r Hn H; destruct s as [|c s]; try discriminate.
  - simpl in Hn. lia.
  - simpl in Hn. simpl in H.
    destruct (c =? dquote)%char.
    { inversion H; subst. simpl. lia. }
    destruct (c =? "\")%char.
    + destruct s as [|e r1]; [discriminate|].
      destruct (simple_escape e).
      * destruct (parse_units r1) as [[us' r']|] eqn:E; [|discriminate].
        inversion H; subst. apply IH in E; simpl in *; lia.
      * destruct (e =? "u")%char; [|discriminate].
        destruct r1 as [|h1 [|h2 [|h3 [|h4 r2]]]]; try discriminate.
        destruct (hex4 h1 h2 h3 h4); [|discriminate].
        destruct (parse_units r2) as [[us' r']|] eqn:E; [|discriminate].
        inversion H; subst. apply IH in E; simpl in *; lia.
    + destruct (N_of_ascii c <? 32)%N; [discriminate|].
      destruct (parse_units s) as [[us' r']|] eqn:E; [|discriminate].
      inversion H; subst. apply IH in E; simpl in *; lia.
Qed.

Lemma parse_string_length (s x r : string) :
  parse_string s = Some (x, r) -> String.length r < String.length s.
Proof.
  unfold parse_string. destruct (parse_units s) as [[us r']|] eqn:E; [|discriminate].
  intros H; inversion H; subst.
  exact (parse_units_length (String.length s) s us r (le_n _) E).
Qed.

Lemma digits_length (s : string) :
  String.length (snd (digits s)) <= String.length s.
Proof.
  induction s as [|c s IH]; simpl; [lia|].
  destruct (is_digit c); simpl; [|lia].
  destruct (digits s) as [d r']. simpl in *. lia.
Qed.

Lemma parse_int_length (s i r : string) :
  parse_int s = Some (i, r) -> String.length r < String.length s.
Proof.
  unfold parse_int. destruct s as [|c s]; [discriminate|].
  destruct (c =? "0")%char.
  - intros H; inversion H; subst. simpl. lia.
  - destruct (is_digit c) eqn:Hd; [|discriminate].
    intros H; inversion H as [H1]. simpl in H1. rewrite Hd in H1.
    pose proof (digits_length s) as Hl.
    destruct (digits s) as [d r']. inversion H1; subst. simpl in *. lia.
Qed.

Lemma parse_frac_length (s f r : string) :
  parse_frac s = Some (f, r) -> String.length r <= String.length s.
Proof.
  unfold parse_frac. destruct s as [|c s]; [intros H; inversion H; subst; lia|].
  destruct (c =? ".")%char.
  - pose proof (digits_length s) as Hl. destruct (digits s) as [[|d0 d] r']; [discriminate|].
    intros H; inversion H; subst. simpl in *. lia.
  - intros H; inversion H; subst. lia.
Qed.

Lemma parse_exp_length (s e r : string) :
  parse_exp s = Some (e, r) -> String.length r <= String.length s.
Proof.
  unfold parse_exp. destruct s as [|c s]; [intros H; inversion H; subst; lia|].
  destruct ((c =? "e") || (c =? "E"))%char; [|intros H; inversion H; subst; lia].
  destruct s as [|c2 r2].
  - simpl. discriminate.
  - destruct ((c2 =? "+") || (c2 =? "-"))%char.
    + pose proof (digits_length r2) as Hl. destruct (digits r2) as [[|d0 d] r']; [discriminate|].
      intros H; inversion H; subst. simpl in *. lia.
    + pose proof (digits_length (String c2 r2)) as Hl.
      destruct (digits (String c2 r2)) as [[|d0 d] r']; [discriminate|].
      intros H; inversion H; subst. simpl in *. lia.
Qed.

Lemma parse_number_length (s l r : string) :
  parse_number s = Some (l, r) -> String.length r < String.length s.
Proof.
  unfold parse_number.
  assert (Hsign : forall sign s1,
             (sign, s1) = match s with
                          | String c r => if (c =? "-")%char then ("-", r) else ("", s)
                          | EmptyString => ("", s)
                          end -> String.length s1 <= String.length s).
  { intros sign s1. destruct s as [|c s']; [intros H; inversion H; simpl; lia|].
    destruct (c =? "-")%char; intros H; inversion H; simpl; lia. }
  destruct (match s with
            | String c r => if (c =? "-")%char then ("-", r) else ("", s)
            | EmptyString => ("", s)
            end) as [sign s1] eqn:Es.
  specialize (Hsign sign s1 eq_refl).
  destruct (parse_int s1) as [[i s2]|] eqn:Ei; [|discriminate].
  destruct (parse_frac s2) as [[f s3]|] eqn:Ef; [|discriminate].
  destruct (parse_exp s3) as [[e s4]|] eqn:Ee; [|discriminate].
  intros H; inversion H; subst.
  apply parse_int_length in Ei. apply parse_frac_length in Ef. apply parse_exp_length in Ee.
  lia.
Qed.

Lemma strip_length (p s r : string) :
  strip p s = Some r -> String.length r <= String.length s.
Proof.
  revert s. induction p as [|a p IH]; intros s; simpl.
  - intros H; inversion H; lia.
  - destruct s as [|b s]; [discriminate|].
    destruct (a =? b)%char; [|discriminate].
    intros H. apply IH in H. simpl. lia.
Qed.

Section Steps.

Variables value value' : string -> option (JSON * string).
Variables elements elements' : string -> option (list JSON * string).
Variables members members' : string -> option (list (string * JSON) * string).

Lemma value_step_consumes :
  consumes elements -> consumes members -> consumes (value_step elements members).
Proof.
  intros He Hm s v r. unfold value_step.
  pose proof (skip_ws_length s) as Hs.
  destruct (skip_ws s) as [|c t]; [discriminate|]. simpl in Hs.
  pose proof (skip_ws_length t) as Ht.
  destruct (c =? dquote)%char.
  { destruct (parse_string t) as [[str r']|] eqn:E; [|discriminate].
    intros H; inversion H; subst. apply parse_string_length in E. lia. }
  destruct (c =? "[")%char.
  { destruct (skip_ws t) as [|c' r']; [discriminate|]. simpl in Ht.
    destruct (c' =? "]")%char; [intros H; inversion H; subst; lia|].
    destruct (elements t) as [[vs r'']|] eqn:E; [|discriminate].
    intros H; inversion H; subst. apply He in E. lia. }
  destruct (c =? "{")%char.
  { destruct (skip_ws t) as [|c' r']; [discriminate|]. simpl in Ht.
    destruct (c' =? "}")%char; [intros H; inversion H; subst; lia|].
    destruct (members t) as [[ps r'']|] eqn:E; [|discriminate].
    intros H; inversion H; subst. apply Hm in E. lia. }
  destruct (c =? "t")%char.
  { destruct (strip "rue" t) as [r'|] eqn:E; [|discriminate].
    intros H; inversion H; subst. apply strip_length in E. lia. }
  destruct (c =? "f")%char.
  { destruct (strip "alse" t) as [r'|] eqn:E; [|discriminate].
    intros H; inversion H; subst. apply strip_length in E. lia. }
  destruct (c =? "n")%char.
  { destruct (strip "ull" t) as [r'|] eqn:E; [|discriminate].
    intros H; inversion H; subst. apply strip_length in E. lia. }
  destruct (parse_number (String c t)) as [[lit r']|] eqn:E; [|discriminate].
  intros H; inversion H; subst. apply parse_number_length in E. simpl in E. lia.
Qed.

Lemma elements_step_consumes :
  consumes value -> consumes elements -> consumes (elements_step value elements).
Proof.
  intros Hv He s vs r. unfold elements_step.
  destruct (value s) as [[v t]|] eqn:E; [|discriminate]. apply Hv in E.
  pose proof (skip_ws_length t) as Ht.
  destruct (skip_ws t) as [|c t']; [discriminate|]. simpl in Ht.
  destruct (c =? ",")%char.
  { destruct (elements t') as [[vs' r'']|] eqn:E'; [|discriminate].
    intros H; inversion H; subst. apply He in E'. lia. }
  destruct (c =? "]")%char; [|discriminate].
  intros H; inversion H; subst. lia.
Qed.

Lemma members_step_consumes :
  consumes value -> consumes members -> consumes (members_step value members).
Proof.
  intros Hv Hm s ps r. unfold members_step.
  pose proof (skip_ws_length s) as Hs.
  destruct (skip_ws s) as [|q t]; [discriminate|]. simpl in Hs.
  destruct (q =? dquote)%char; [|discriminate].
  destruct (parse_string t) as [[k r1]|] eqn:Ek; [|discriminate].
  apply parse_string_length in Ek.
  pose proof (skip_ws_length r1) as H1.
  destruct (skip_ws r1) as [|colon r2]; [discriminate|]. simpl in H1.
  destruct (colon =? ":")%char; [|discriminate].
  destruct (value r2) as [[v r3]|] eqn:Ev; [|discriminate]. apply Hv in Ev.
  pose proof (skip_ws_length r3) as H3.
  destruct (skip_ws r3) as [|c r4]; [discriminate|]. simpl in H3.
  destruct (c =? ",")%char.
  { destruct (members r4) as [[ps' r5]|] eqn:Em; [|discriminate].
    intros H; inversion H; subst. apply Hm in Em. lia. }
  destruct (c =? "}")%char; [|discriminate].
  intros H; inversion H; subst. lia.
Qed.

(** A step looks at its nested readers only on shorter text. *)
Lemma value_step_ext (s : string) :
  (forall r, String.length r < String.length s -> elements r = elements' r) ->
  (forall r, String.length r < String.length s -> members r = members' r) ->
  value_step elements members s = value_step elements' members' s.
Proof.
  intros He Hm. unfold value_step.
  pose proof (skip_ws_length s) as Hs.
  destruct (skip_ws s) as [|c t]; [reflexivity|]. simpl in Hs.
  rewrite (He t), (Hm t) by lia. reflexivity.
Qed.

Lemma elements_step_ext (s : string) :
  consumes value' ->
  value s = value' s ->
  (forall r, String.length r < String.length s -> elements r = elements' r) ->
  elements_step value elements s = elements_step value' elements' s.
Proof.
  intros Hc Hv He. unfold elements_step. rewrite Hv.
  destruct (value' s) as [[v t]|] eqn:E; [|reflexivity]. apply Hc in E.
  pose proof (skip_ws_length t) as Ht.
  destruct (skip_ws t) as [|c t']; [reflexivity|]. simpl in Ht.
  rewrite (He t') by lia. reflexivity.
Qed.

Lemma members_step_ext (s : string) :
  consumes value' ->
  (forall r, String.length r < String.length s -> value r = value' r) ->
  (forall r, String.length r < String.length s -> members r = members' r) ->
  members_step value members s = members_step value' members' s.
Proof.
  intros Hc Hv Hm. unfold members_step.
  pose proof (skip_ws_length s) as Hs.
  destruct (skip_ws s) as [|q t]; [reflexivity|]. simpl in Hs.
  destruct (q =? dquote)%char; [|reflexivity].
  destruct (parse_string t) as [[k r1]|] eqn:Ek; [|reflexivity].
  apply parse_string_length in Ek.
  pose proof (skip_ws_length r1) as H1.
  destruct (skip_ws r1) as [|colon r2]; [reflexivity|]. simpl in H1.
  destruct (colon =? ":")%char; [|reflexivity].
  rewrite (Hv r2) by lia.
  destruct (value' r2) as [[v r3]|] eqn:Ev; [|reflexivity]. apply Hc in Ev.
  pose proof (skip_ws_length r3) as H3.
  destruct (skip_ws r3) as [|c r4]; [reflexivity|]. simpl in H3.
  rewrite (Hm r4) by lia. reflexivity.
Qed.

End Steps.

Lemma parse_consumes (fuel : nat) :
  consumes (parse_value fuel) /\ consumes (parse_elements fuel) /\ consumes (parse_members fuel).
Proof.
  induction fuel as [|fuel (Hv & He & Hm)].
  - repeat split; intros s a r H; discriminate H.
  - repeat split; intros s a r H.
    + exact (value_step_consumes _ _ He Hm s a r H).
    + exact (elements_step_consumes _ _ Hv He s a r H).
    + exact (members_step_consumes _ _ Hv Hm s a r H).
Qed.

(** *** Fuel *)

(** With fuel beyond twice the length of the text, one more unit changes
    nothing. *)
Lemma fuel_enough (n : nat) :
  forall s, String.length s < n ->
    (forall fuel, 2 * String.length s + 1 <= fuel ->
                  parse_value (S fuel) s = parse_value fuel s) /\
    (forall fuel, 2 * String.length s + 2 <= fuel ->
                  parse_elements (S fuel) s = parse_elements fuel s) /\
    (forall fuel, 2 * String.length s + 2 <= fuel ->
                  parse_members (S fuel) s = parse_members fuel s).
Proof.
  induction n as [|n IH]; intros s Hn; [lia|].
  assert (Hv : forall fuel, 2 * String.length s + 1 <= fuel ->
                            parse_value (S fuel) s = parse_value fuel s).
  { intros [|fuel] Hf; [lia|].
    change (value_step (parse_elements (S fuel)) (parse_members (S fuel)) s =
            value_step (parse_elements fuel) (parse_members fuel) s).
    apply value_step_ext; intros r Hr; apply IH; lia. }
  split; [exact Hv|]. split.
  - intros [|fuel] Hf; [lia|].
    change (elements_step (parse_value (S fuel)) (parse_elements (S fuel)) s =
            elements_step (parse_value fuel) (parse_elements fuel) s).
    apply elements_step_ext.
    + apply parse_consumes.
    + apply Hv. lia.
    + intros r Hr. apply IH; lia.
  - intros [|fuel] Hf; [lia|].
    change (members_step (parse_value (S fuel)) (parse_members (S fuel)) s =
            members_step (parse_value fuel) (parse_members fuel) s).
    apply members_step_ext.
    + apply parse_consumes.
    + intros r Hr. apply IH; lia.
    + intros r Hr. apply IH; lia.
Qed.

(** [JSON_parse] never fails for want of fuel: more fuel gives the same
    result. *)
Lemma parse_value_fuel (text : string) (extra : nat) :
  parse_value (2 * String.length text + 2 + extra) text =
  parse_value (2 * String.length text + 2) text.
Proof.
  induction extra as [|extra IH].
  - rewrite Nat.add_0_r. reflexivity.
  - rewrite Nat.add_succ_r, <- IH.
    apply (fuel_enough (S (String.length text)) text (Nat.lt_succ_diag_r _)). lia.
Qed.

(** *** Strings *)

Lemma parse_string_quote_char (c : ascii) (tail : string) :
  parse_string (quote_char c tail) =
  match parse_string tail with
  | Some (s, r) => Some (String c s, r)
  | None => None
  end.
Proof.
  unfold parse_string.
  destruct c as [[] [] [] [] [] [] [] []]; simpl;
    (destruct (parse_units tail) as [[[|[c'|cu] us] r]|]; reflexivity).
Qed.

Lemma parse_string_quote_chars (s tail : string) :
  parse_string (quote_chars s (String dquote tail)) = Some (s, tail).
Proof.
  induction s as [|c s IH]; simpl.
  - reflexivity.
  - rewrite parse_string_quote_char, IH. reflexivity.
Qed.

Lemma parse_value_string (fuel : nat) (s tail : string) :
  parse_value (S fuel) (QuoteJSONString s tail) = Some (JString s, tail).
Proof.
  unfold QuoteJSONString. cbn [parse_value]. unfold value_step. simpl.
  rewrite parse_string_quote_chars. reflexivity.
Qed.

(** *** Objects *)

(** One member [key:value] of an object, followed by [rest]. *)
Lemma parse_members_step (fuel : nat) (k v rest : string) :
  parse_members (S (S fuel)) (QuoteJSONString k (String ":" (QuoteJSONString v rest))) =
  match skip_ws rest with
  | EmptyString => None
  | String c r =>
      if (c =? ",")%char then
        match parse_members (S fuel) r with
        | Some (ps, r') => Some ((k, JString v) :: ps, r')
        | None => None
        end
      else if (c =? "}")%char then Some ([(k, JString v)], r)
      else None
  end.
Proof.
  change (parse_members (S (S fuel))) with
    (members_step (parse_value (S fuel)) (parse_members (S fuel))).
  unfold members_step, QuoteJSONString at 1.
  change (skip_ws (String dquote ?x)) with (String dquote x).
  change (dquote =? dquote)%char with true. cbv iota.
  rewrite parse_string_quote_chars.
  change (skip_ws (String ":" ?x)) with (String ":" x).
  change (":" =? ":")%char with true. cbv iota.
  rewrite parse_value_string. reflexivity.
Qed.

Lemma parse_members_properties (ps : list (string * string)) :
  ps <> [] ->
  forall (fuel : nat) (tail : string),
    length ps <= fuel ->
    parse_members (S fuel) (SerializeProperties ps (String "}" tail)) =
    Some (JSON_of_properties ps, tail).
Proof.
  induction ps as [|[k v] ps IH]; intros Hne fuel tail Hf; [congruence|].
  destruct fuel as [|fuel]; [simpl in Hf; lia|].
  destruct ps as [|p ps].
  - simpl SerializeProperties. rewrite parse_members_step. reflexivity.
  - change (SerializeProperties ((k, v) :: p :: ps) (String "}" tail)) with
      (QuoteJSONString k
         (String ":" (QuoteJSONString v (String "," (SerializeProperties (p :: ps) (String "}" tail)))))).
    rewrite parse_members_step.
    change (skip_ws (String "," ?x)) with (String "," x).
    change ("," =? ",")%char with true. cbv iota.
    rewrite IH; [reflexivity | discriminate | simpl in Hf |- *; lia].
Qed.

Lemma SerializeProperties_head (ps : list (string * string)) (tail : string) :
  ps <> [] -> exists r, SerializeProperties ps tail = String dquote r.
Proof.
  destruct ps as [|[k v] [|p ps]]; intros H; [congruence | |];
    simpl; unfold QuoteJSONString; eexists; reflexivity.
Qed.

Lemma Member_properties_length (m : Member) :
  Member_properties m <> [] /\ length (Member_properties m) <= 9.
Proof.
  unfold Member_properties.
  destruct (Member.ministerPosition m), (Member.ministry m), (Member.photo m); simpl;
    (split; [discriminate | lia]).
Qed.

Lemma parse_value_member (m : Member) (fuel : nat) (tail : string) :
  10 <= fuel ->
  parse_value (S fuel) (SerializeMember m tail) = Some (JSON_of_Member m, tail).
Proof.
  intros Hf. destruct fuel as [|fuel]; [lia|].
  destruct (Member_properties_length m) as [Hne Hlen].
  unfold SerializeMember, JSON_of_Member.
  destruct (SerializeProperties_head (Member_properties m) (String "}" tail) Hne) as [r Hr].
  pose proof (parse_members_properties _ Hne fuel tail ltac:(lia)) as Hp.
  rewrite Hr in *.
  change (parse_value (S (S fuel))) with
    (value_step (parse_elements (S fuel)) (parse_members (S fuel))).
  unfold value_step. simpl skip_ws. simpl Ascii.eqb. cbv iota.
  rewrite Hp. reflexivity.
Qed.

(** *** Arrays *)

Lemma parse_elements_step (fuel : nat) (m : Member) (rest : string) :
  10 <= fuel ->
  parse_elements (S (S fuel)) (SerializeMember m rest) =
  match skip_ws rest with
  | EmptyString => None
  | String c r =>
      if (c =? ",")%char then
        match parse_elements (S fuel) r with
        | Some (vs, r') => Some (JSON_of_Member m :: vs, r')
        | None => None
        end
      else if (c =? "]")%char then Some ([JSON_of_Member m], r)
      else None
  end.
Proof.
  intros Hf.
  change (parse_elements (S (S fuel))) with
    (elements_step (parse_value (S fuel)) (parse_elements (S fuel))).
  unfold elements_step.
  rewrite parse_value_member by assumption. reflexivity.
Qed.

Lemma parse_elements_members (ms : list Member) :
  ms <> [] ->
  forall (fuel : nat) (tail : string),
    length ms + 10 <= fuel ->
    parse_elements (S fuel) (SerializeElements ms (String "]" tail)) =
    Some (map JSON_of_Member ms, tail).
Proof.
  induction ms as [|m ms IH]; intros Hne fuel tail Hf; [congruence|].
  destruct fuel as [|fuel]; [simpl in Hf; lia|]. simpl in Hf.
  destruct ms as [|m' ms].
  - simpl SerializeElements. rewrite parse_elements_step by lia. reflexivity.
  - change (SerializeElements (m :: m' :: ms) (String "]" tail)) with
      (SerializeMember m (String "," (SerializeElements (m' :: ms) (String "]" tail)))).
    rewrite parse_elements_step by lia.
    change (skip_ws (String "," ?x)) with (String "," x).
    change ("," =? ",")%char with true. cbv iota.
    rewrite IH; [reflexivity | discriminate | simpl in Hf |- *; lia].
Qed.

(** *** The text is long enough for the fuel of [JSON_parse] *)

Lemma quote_char_length (c : ascii) (tail : string) :
  S (String.length tail) <= String.length (quote_char c tail).
Proof.
  unfold quote_char.
  repeat match goal with
         | |- context [if ?b then _ else _] => destruct b
         end; simpl; lia.
Qed.

Lemma quote_chars_length (s tail : string) :
  String.length tail <= String.length (quote_chars s tail).
Proof.
  induction s as [|c s IH]; simpl; [lia|].
  pose proof (quote_char_length c (quote_chars s tail)). lia.
Qed.

Lemma QuoteJSONString_length (s tail : string) :
  2 + String.length tail <= String.length (QuoteJSONString s tail).
Proof.
  unfold QuoteJSONString. simpl.
  pose proof (quote_chars_length s (String dquote tail)). simpl in *. lia.
Qed.

Lemma SerializeProperties_length (ps : list (string * string)) (tail : string) :
  String.length tail <= String.length (SerializeProperties ps tail).
Proof.
  induction ps as [|[k v] ps IH]; [simpl; lia|].
  destruct ps as [|p ps].
  - simpl.
    pose proof (QuoteJSONString_length k (String ":" (QuoteJSONString v tail))).
    pose proof (QuoteJSONString_length v tail). simpl in *. lia.
  - change (SerializeProperties ((k, v) :: p :: ps) tail) with
      (QuoteJSONString k
         (String ":" (QuoteJSONString v (String "," (SerializeProperties (p :: ps) tail))))).
    pose proof (QuoteJSONString_length k
      (String ":" (QuoteJSONString v (String "," (SerializeProperties (p :: ps) tail))))).
    pose proof (QuoteJSONString_length v (String "," (SerializeProperties (p :: ps) tail))).
    simpl String.length in *. lia.
Qed.

Lemma SerializeProperties_length_cons (k v : string) (ps : list (string * string))
    (tail : string) :
  ps <> [] ->
  6 + String.length tail <= String.length (SerializeProperties ((k, v) :: ps) tail).
Proof.
  destruct ps as [|p ps]; intros Hne; [congruence|].
  change (SerializeProperties ((k, v) :: p :: ps) tail) with
    (QuoteJSONString k
       (String ":" (QuoteJSONString v (String "," (SerializeProperties (p :: ps) tail))))).
  pose proof (QuoteJSONString_length k
    (String ":" (QuoteJSONString v (String "," (SerializeProperties (p :: ps) tail))))).
  pose proof (QuoteJSONString_length v (String "," (SerializeProperties (p :: ps) tail))).
  pose proof (SerializeProperties_length (p :: ps) tail).
  simpl String.length in *. lia.
Qed.

Lemma SerializeMember_length (m : Member) (tail : string) :
  8 + String.length tail <= String.length (SerializeMember m tail).
Proof.
  unfold SerializeMember, Member_properties. simpl app.
  match goal with
  | |- context [SerializeProperties ((?k, ?v) :: ?ps) ?t] =>
      pose proof (SerializeProperties_length_cons k v ps t ltac:(discriminate)) as H
  end.
  simpl String.length in *. lia.
Qed.

Lemma SerializeElements_length (ms : list Member) (tail : string) :
  8 * length ms + String.length tail <= String.length (SerializeElements ms tail).
Proof.
  induction ms as [|m ms IH]; [simpl; lia|].
  destruct ms as [|m' ms].
  - simpl SerializeElements. pose proof (SerializeMember_length m tail). simpl length. lia.
  - change (SerializeElements (m :: m' :: ms) tail) with
      (SerializeMember m (String "," (SerializeElements (m' :: ms) tail))).
    pose proof (SerializeMember_length m (String "," (SerializeElements (m' :: ms) tail))).
    simpl String.length in *. simpl length in *. lia.
Qed.

Lemma SerializeElements_head (ms : list Member) (tail : string) :
  ms <> [] -> exists r, SerializeElements ms tail = String "{" r.
Proof.
  destruct ms as [|m [|m' ms]]; intros H; [congruence | |];
    simpl; unfold SerializeMember; eexists; reflexivity.
Qed.

(** [JSON.parse] reads the text of [JSON.stringify] back. *)
Lemma JSON_parse_stringify (ms : list Member) :
  JSON_parse (JSON_stringify ms) = Some (JSON_of_Members ms).
Proof.
  destruct ms as [|m ms]; [reflexivity|].
  assert (Hne : m :: ms <> []) by discriminate.
  unfold JSON_parse, JSON_stringify, JSON_of_Members.
  pose proof (SerializeElements_length (m :: ms) "]") as Hlen.
  destruct (SerializeElements_head (m :: ms) "]" Hne) as [r Hr].
  pose proof (parse_elements_members (m :: ms) Hne
                (2 * String.length (SerializeElements (m :: ms) "]") + 2) "") as Hp.
  simpl length in Hlen, Hp.
  specialize (Hp ltac:(lia)).
  replace (2 * String.length (String "[" (SerializeElements (m :: ms) "]")) + 2)
    with (S (S (2 * String.length (SerializeElements (m :: ms) "]") + 2)))
    by (simpl String.length; lia).
  rewrite Hr in *.
  set (fuel := 2 * String.length (String "{" r) + 2) in *.
  change (parse_value (S (S fuel))) with
    (value_step (parse_elements (S fuel)) (parse_members (S fuel))).
  unfold value_step. simpl skip_ws. simpl Ascii.eqb. cbv iota.
  rewrite Hp. reflexivity.
Qed.

(** *** The typed view *)

Lemma Member_of_JSON_of_Member (m : Member) : Member_of_JSON (JSON_of_Member m) = Some m.
Proof.
  destruct m as [i p fn ln ph wh mp mn pa].
  unfold JSON_of_Member, Member_properties, Member_of_JSON,
    string_property, optional_string_property.
  destruct ph, mp, mn; simpl; rewrite z_enum_literal; reflexivity.
Qed.

Lemma Members_of_JSON_of_Members (ms : list Member) :
  Members_of_JSON (JSON_of_Members ms) = Some ms.
Proof.
  unfold Members_of_JSON, JSON_of_Members.
  induction ms as [|m ms IH]; [reflexivity|].
  change (Members_of_elements (map JSON_of_Member (m :: ms))) with
    (match Member_of_JSON (JSON_of_Member m), Members_of_elements (map JSON_of_Member ms) with
     | Some m0, Some ms0 => Some (m0 :: ms0)
     | _, _ => None
     end).
  rewrite Member_of_JSON_of_Member, IH. reflexivity.
Qed.

(** C7. For every collection of member records, the text that
    [JSON.stringify] writes is read back by [JSON.parse] as the same records,
    field for field and in the same order. *)
Theorem deserialize_stringify (ms : list Member) :
  deserialize (JSON_stringify ms) = Some ms.
Proof.
  unfold deserialize. rewrite JSON_parse_stringify. apply Members_of_JSON_of_Members.
Qed.

(** What the next start reads after the effect has stored a collection. *)
Lemma persist_with_room (room : string -> bool) (raw : option string) (ms : list Member) :
  room (JSON_stringify ms) = true ->
  persist room (storage_entry raw) ms = storage_entry (Some (JSON_stringify ms)).
Proof. unfold persist, setItem. intros ->. reflexivity. Qed.

Lemma initial_members_of_snapshot (ms : list Member) :
  initial_members (storage_entry (Some (JSON_stringify ms))) = Normal (JSON_of_Members ms).
Proof.
  unfold initial_members. simpl.
  unfold JSON_parse_or_throw. rewrite JSON_parse_stringify. reflexivity.
Qed.

Lemma initial_members_after_persist (room : string -> bool) (raw : option string)
    (ms : list Member) :
  room (JSON_stringify ms) = true ->
  initial_members (persist room (storage_entry raw) ms) = Normal (JSON_of_Members ms).
Proof.
  intros H. rewrite persist_with_room by exact H. apply initial_members_of_snapshot.
Qed.

(** C10. The schema only asks the four required texts for a length of at
    least one and trims nothing.  A draft whose [firstName], [lastName],
    [workHistory] and [party] are non-empty, whatever their characters, so in
    particular when each is a single space or any other run of white space
    (and whose prefix is one of the four options), is accepted; submitting it
    while creating appends a record that holds those strings unchanged; and
    the effect persists it: when the storage has room for the text, the
    snapshot is the text of the new collection, which the next start reads
    back record for record. *)
Theorem nonempty_fields_accepted_stored_and_persisted (env : Env) (st : State) (p : Prefix)
    (dataUrl : option string) :
  Creating st ->
  z_enum (Draft.prefix (form st)) = Some p ->
  Draft.firstName (form st) <> "" -> Draft.lastName (form st) <> "" ->
  Draft.workHistory (form st) <> "" -> Draft.party (form st) <> "" ->
  read_photo (Draft.photoFile (form st)) = Normal dataUrl ->
  memberSchema (form st) = inr (parsed (form st) p) /\
  exists m st',
    onSubmit env st = Applied st' /\
    members st' = (members st ++ [m])%list /\
    Member.firstName m = Draft.firstName (form st) /\
    Member.lastName m = Draft.lastName (form st) /\
    Member.workHistory m = Draft.workHistory (form st) /\
    Member.party m = Draft.party (form st) /\
    forall (room : string -> bool) (raw : option string),
      room (JSON_stringify (members st')) = true ->
      persist room (storage_entry raw) (members st') =
      storage_entry (Some (JSON_stringify (members st'))) /\
      initial_members (persist room (storage_entry raw) (members st')) =
      Normal (JSON_of_Members (members st')) /\
      Members_of_JSON (JSON_of_Members (members st')) = Some (members st').
Proof.
  intros Hc Hp Hf Hl Hw Hy Hr.
  pose proof (memberSchema_accepts _ _ Hp Hf Hl Hw Hy) as Hv.
  split; [exact Hv|].
  rewrite (onSubmit_creating env st _ dataUrl Hc Hv Hr).
  eexists. eexists. split; [reflexivity|].
  unfold create; simpl. repeat (split; [reflexivity|]).
  intros room raw Hroom. split; [|split].
  - apply persist_with_room. exact Hroom.
  - apply initial_members_after_persist. exact Hroom.
  - apply Members_of_JSON_of_Members.
Qed.

Lemma nonempty_fields_accepted_stored_and_persisted_witness :
  Creating blank_state /\
  z_enum (Draft.prefix (form blank_state)) = Some Nang /\
  Draft.firstName (form blank_state) = " " /\
  Draft.lastName (form blank_state) = no_break_space /\
  Draft.workHistory (form blank_state) = String "009" (String "010" "") /\
  Draft.party (form blank_state) = ideographic_space /\
  read_photo (Draft.photoFile (form blank_state)) = Normal None /\
  exists m st',
    onSubmit env0 blank_state = Applied st' /\
    members st' = [m] /\
    Member.firstName m = " " /\
    Member.lastName m = no_break_space /\
    Member.workHistory m = String "009" (String "010" "") /\
    Member.party m = ideographic_space /\
    forall (room : string -> bool) (raw : option string),
      room (JSON_stringify (members st')) = true ->
      persist room (storage_entry raw) (members st') =
      storage_entry (Some (JSON_stringify (members st'))) /\
      initial_members (persist room (storage_entry raw) (members st')) =
      Normal (JSON_of_Members (members st')) /\
      Members_of_JSON (JSON_of_Members (members st')) = Some (members st').
Proof.
  repeat (split; [reflexivity|]).
  refine (proj2 (nonempty_fields_accepted_stored_and_persisted env0 blank_state Nang None
                   eq_refl eq_refl _ _ _ _ eq_refl)); discriminate.
Defined.

(** * Further properties *)

(** ** Identifiers *)

Lemma all_digits_string_of_uint (d : Decimal.uint) :
  all_digits (NilEmpty.string_of_uint d) = true.
Proof. induction d; simpl; trivial. Qed.

Lemma to_uint_not_Nil (n : N) : N.to_uint n <> Decimal.Nil.
Proof.
  destruct n as [|p]; [discriminate|]. simpl.
  apply DecimalPos.Unsigned.to_uint_nonnil.
Qed.

Lemma all_digits_decimal (n : N) :
  all_digits (NilZero.string_of_uint (N.to_uint n)) = true.
Proof.
  unfold NilZero.string_of_uint.
  destruct (N.to_uint n); try reflexivity; apply all_digits_string_of_uint.
Qed.

Lemma decimal_inj (a b : N) :
  NilZero.string_of_uint (N.to_uint a) = NilZero.string_of_uint (N.to_uint b) -> a = b.
Proof.
  intros H. apply DecimalN.Unsigned.to_uint_inj.
  pose proof (NilZero.usu _ (to_uint_not_Nil a)) as Ha.
  pose proof (NilZero.usu _ (to_uint_not_Nil b)) as Hb.
  rewrite H in Ha. congruence.
Qed.

(** Two runs of digits, each followed by an underscore, that agree as texts
    agree run by run. *)
Lemma digits_then_underscore (u v x y : string) :
  all_digits u = true -> all_digits v = true ->
  u ++ String "_" x = v ++ String "_" y -> u = v /\ x = y.
Proof.
  revert v. induction u as [|c u IH]; intros [|c' v] Hu Hv H; simpl in *.
  - inversion H. auto.
  - inversion H; subst. discriminate Hv.
  - inversion H; subst. discriminate Hu.
  - apply andb_prop in Hu, Hv. inversion H; subst.
    destruct (IH v (proj2 Hu) (proj2 Hv) H2) as [-> ->]. auto.
Qed.

Lemma substring_0_length (m : nat) (s : string) : String.length (substring 0 m s) <= m.
Proof.
  revert s. induction m as [|m IH]; intros [|c s]; simpl; try lia.
  specialize (IH s). lia.
Qed.

Lemma substring_length (n m : nat) (s : string) : String.length (substring n m s) <= m.
Proof.
  revert s. induction n as [|n IH]; intros s.
  - apply substring_0_length.
  - destruct s as [|c s]; simpl.
    + destruct m; simpl; lia.
    + apply IH.
Qed.

Lemma safeUUID_fallback (env : Env) :
  fallback env ->
  safeUUID env =
  "id_" ++ NilZero.string_of_uint (N.to_uint (Date_now env)) ++
  String "_" (substring 2 6 (Math_random_toString36 env)).
Proof. unfold safeUUID. intros [-> | ->]; reflexivity. Qed.

(** X1. Without a working [crypto.randomUUID] the id is [id_], the decimal
    clock reading, an underscore and at most six more characters; it is never
    the empty string, so a record made with it can be edited. *)
Theorem safeUUID_fallback_shape (env : Env) :
  fallback env ->
  exists clock tail,
    safeUUID env = "id_" ++ clock ++ String "_" tail /\
    all_digits clock = true /\ clock <> "" /\
    String.length tail <= 6 /\
    truthy (Some (safeUUID env)) = true.
Proof.
  intros H. rewrite (safeUUID_fallback env H).
  exists (NilZero.string_of_uint (N.to_uint (Date_now env))),
         (substring 2 6 (Math_random_toString36 env)).
  split; [reflexivity|]. split; [apply all_digits_decimal|]. split.
  - intros E. pose proof (NilZero.usu _ (to_uint_not_Nil (Date_now env))) as Hu.
    rewrite E in Hu. discriminate Hu.
  - split; [apply substring_length | reflexivity].
Qed.

Lemma safeUUID_fallback_shape_witness :
  fallback env0 /\
  exists clock tail,
    safeUUID env0 = "id_" ++ clock ++ String "_" tail /\
    all_digits clock = true /\ clock <> "" /\
    String.length tail <= 6 /\
    truthy (Some (safeUUID env0)) = true.
Proof.
  split; [left; reflexivity|].
  exact (safeUUID_fallback_shape env0 (or_introl eq_refl)).
Defined.

(** X2. Two ids made by the fallback are equal exactly when the clock
    readings are equal and the six characters taken from the random text are
    equal. *)
Theorem safeUUID_fallback_collides_iff (e1 e2 : Env) :
  fallback e1 -> fallback e2 ->
  (safeUUID e1 = safeUUID e2 <->
   Date_now e1 = Date_now e2 /\
   substring 2 6 (Math_random_toString36 e1) = substring 2 6 (Math_random_toString36 e2)).
Proof.
  intros H1 H2. rewrite (safeUUID_fallback e1 H1), (safeUUID_fallback e2 H2). split.
  - intros H. simpl in H. inversion H as [H'].
    apply digits_then_underscore in H'; try apply all_digits_decimal.
    destruct H' as [Hd Hr]. split; [apply decimal_inj; exact Hd | exact Hr].
  - intros [-> ->]. reflexivity.
Qed.

Lemma safeUUID_fallback_collides_iff_witness :
  fallback env0 /\ fallback (mkEnv randomUUID_throws 1700000000001 "0.4fzyo82mvyr") /\
  (safeUUID env0 = safeUUID (mkEnv randomUUID_throws 1700000000001 "0.4fzyo82mvyr") <->
   1700000000000%N = 1700000000001%N /\ "4fzyo8" = "4fzyo8").
Proof.
  split; [left; reflexivity|]. split; [right; reflexivity|].
  exact (safeUUID_fallback_collides_iff env0
           (mkEnv randomUUID_throws 1700000000001 "0.4fzyo82mvyr")
           (or_introl eq_refl) (or_intror eq_refl)).
Defined.

(** ** Validation, in full *)

(** X3. The enum of the schema accepts a string exactly when it is the
    literal of the prefix it returns. *)
Theorem z_enum_exactly_the_literals (s : string) (p : Prefix) :
  z_enum s = Some p <-> s = Prefix_literal p.
Proof.
  split; [apply z_enum_sound | intros ->; apply z_enum_literal].
Qed.

(** X4. The schema accepts a draft exactly when its prefix is one of the
    four literals and [firstName], [lastName], [workHistory] and [party] are
    non-empty; the file and the two ministerial fields play no part. *)
Theorem memberSchema_accepts_iff (d : Draft) :
  (exists v, memberSchema d = inr v) <->
  (exists p, Draft.prefix d = Prefix_literal p) /\
  Draft.firstName d <> "" /\ Draft.lastName d <> "" /\
  Draft.workHistory d <> "" /\ Draft.party d <> "".
Proof.
  split.
  - intros [v Hv]. apply memberSchema_inr in Hv.
    destruct Hv as (p & Hp & _ & H). split; [|exact H].
    exists p. apply z_enum_sound. exact Hp.
  - intros [[p Hp] (Hf & Hl & Hw & Hy)]. exists (parsed d p).
    apply memberSchema_accepts; trivial. rewrite Hp. apply z_enum_literal.
Qed.

(** X5. When the schema rejects a draft it reports at least one issue, and
    it reports the message of a field exactly when that field is empty (the
    prefix issue exactly when the prefix is none of the four literals). *)
Theorem memberSchema_issues (d : Draft) (issues : list ZodIssue) :
  memberSchema d = inl issues ->
  issues <> [] /\
  (In (invalid_enum_value "prefix") issues <-> z_enum (Draft.prefix d) = None) /\
  (In (too_small "firstName" "กรุณากรอกชื่อ") issues <-> Draft.firstName d = "") /\
  (In (too_small "lastName" "กรุณากรอกนามสกุล") issues <-> Draft.lastName d = "") /\
  (In (too_small "workHistory" "ใส่ประวัติ/ผลงาน") issues <-> Draft.workHistory d = "") /\
  (In (too_small "party" "ใส่ชื่อพรรค") issues <-> Draft.party d = "").
Proof.
  unfold memberSchema. destruct d as [px fn ln ph wh mp mn pa]; simpl.
  destruct (z_enum px) as [p|], fn, ln, wh, pa; simpl;
    intros H; inversion H; subst; clear H;
    (split; [discriminate|]);
    repeat split; simpl; intros H;
    repeat match goal with
           | H : _ \/ _ |- _ => destruct H
           | H : False |- _ => contradiction
           end;
    try discriminate; try reflexivity; auto 10.
Qed.

Lemma memberSchema_issues_witness :
  memberSchema initialValues =
  inl [too_small "firstName" "กรุณากรอกชื่อ"; too_small "lastName" "กรุณากรอกนามสกุล";
       too_small "workHistory" "ใส่ประวัติ/ผลงาน"; too_small "party" "ใส่ชื่อพรรค"] /\
  (In (invalid_enum_value "prefix")
      [too_small "firstName" "กรุณากรอกชื่อ"; too_small "lastName" "กรุณากรอกนามสกุล";
       too_small "workHistory" "ใส่ประวัติ/ผลงาน"; too_small "party" "ใส่ชื่อพรรค"]
   <-> z_enum (Draft.prefix initialValues) = None).
Proof.
  split; [reflexivity|].
  exact (proj1 (proj2 (memberSchema_issues initialValues _ eq_refl))).
Defined.

(** ** Submit *)

(** X6. When the draft is valid but its file cannot be read, the submit
    ends in the alert and leaves the whole state as it was, in either state of
    the controller. *)
Theorem onSubmit_unreadable_photo (env : Env) (st : State) (values : MemberFormValues)
    (file : File) :
  memberSchema (form st) = inr values ->
  MemberFormValues.photoFile values = Some file ->
  readAsDataURL file = None ->
  onSubmit env st = Alerted "อัปโหลดรูปไม่สำเร็จ กรุณาลองใหม่" /\
  state_after st (onSubmit env st) = st.
Proof.
  intros Hv Hp Hr. unfold onSubmit, submitHandler, read_photo, fileToDataUrl.
  rewrite Hv, Hp, Hr. simpl. split; reflexivity.
Qed.

Lemma onSubmit_unreadable_photo_witness :
  let d := {| Draft.prefix := "นาย";
              Draft.firstName := "Somchai";
              Draft.lastName := "Sukjai";
              Draft.photoFile := Some (mkFile None);
              Draft.workHistory := "MP since 2019";
              Draft.ministerPosition := Some "";
              Draft.ministry := Some "";
              Draft.party := "Demo Party" |} in
  let st := mkState [somchai "a"] (Some "a") d [] in
  memberSchema (form st) = inr (parsed d Nai) /\
  readAsDataURL (mkFile None) = None /\
  onSubmit env0 st = Alerted "อัปโหลดรูปไม่สำเร็จ กรุณาลองใหม่" /\
  state_after st (onSubmit env0 st) = st.
Proof.
  intros d st. split; [reflexivity|]. split; [reflexivity|].
  exact (onSubmit_unreadable_photo env0 st (parsed d Nai) (mkFile None)
           eq_refl eq_refl eq_refl).
Defined.

Lemma onSubmit_Applied_inv (env : Env) (st st' : State) :
  onSubmit env st = Applied st' ->
  exists values dataUrl,
    memberSchema (form st) = inr values /\
    read_photo (MemberFormValues.photoFile values) = Normal dataUrl /\
    form st' = initialValues /\ errors st' = [] /\
    ((exists i, Editing st i /\ editingId st' = None /\
                members st' = update i values dataUrl (members st)) \/
     (Creating st /\ editingId st' = editingId st /\
      members st' = create env values dataUrl (members st))).
Proof.
  unfold onSubmit, submitHandler.
  destruct (memberSchema (form st)) as [issues | values]; [discriminate|].
  destruct (read_photo (MemberFormValues.photoFile values)) as [dataUrl|] eqn:Hr;
    [|discriminate].
  intros H. exists values, dataUrl. split; [reflexivity|]. split; [exact Hr|].
  destruct (editingId st) as [e|] eqn:Ee.
  - destruct (String.eqb_spec e "") as [-> | Hne]; simpl in H;
      inversion H; subst; simpl; repeat split.
    + right. unfold Creating. rewrite Ee. repeat split.
    + left. exists e. unfold Editing. rewrite Ee. repeat split. exact Hne.
  - inversion H; subst; simpl. repeat split.
    right. unfold Creating. rewrite Ee. repeat split.
Qed.

Lemma submitHandler_resumes (env : Env) (st : State) (values : MemberFormValues) :
  submitHandler env st values = submit_resumes env st values st.
Proof. reflexivity. Qed.

(** X7. When an applied submit ends, the draft is reset to [initialValues]
    and no error is reported.  [editingId] is cleared by the editing branch
    only: a submit clicked while creating leaves [editingId] as the page has
    it when the file has been read, so an edit click made during the read
    stays in force.  When nothing happened in between, which is the one step
    of [submitHandler], the controller ends creating. *)
Theorem submit_resumes_resets_form (env : Env) (clicked now st' : State)
    (values : MemberFormValues) :
  submit_resumes env clicked values now = Applied st' ->
  form st' = initialValues /\ errors st' = [] /\
  (truthy (editingId clicked) = true -> editingId st' = None) /\
  (truthy (editingId clicked) = false -> editingId st' = editingId now) /\
  (now = clicked ->
   Creating st' /\ submitHandler env clicked values = Applied st').
Proof.
  unfold submit_resumes.
  destruct (read_photo (MemberFormValues.photoFile values)) as [dataUrl|] eqn:Hr;
    [|discriminate].
  destruct (editingId clicked) as [e|] eqn:Ee.
  - destruct (String.eqb_spec e "") as [-> | Hne]; simpl; intros H;
      inversion H; subst st'; simpl; (split; [reflexivity|]); (split; [reflexivity|]).
    + split; [discriminate|]. split; [reflexivity|]. intros ->. split.
      * unfold Creating. simpl. rewrite Ee. reflexivity.
      * unfold submitHandler. rewrite Hr, Ee. reflexivity.
    + split; [reflexivity|]. split.
      * apply String.eqb_neq in Hne. rewrite Hne. discriminate.
      * intros ->. split; [reflexivity|].
        unfold submitHandler. rewrite Hr, Ee.
        apply String.eqb_neq in Hne. rewrite Hne. reflexivity.
  - intros H; inversion H; subst st'; simpl.
    split; [reflexivity|]. split; [reflexivity|]. split; [discriminate|].
    split; [reflexivity|]. intros ->. split.
    + unfold Creating. simpl. rewrite Ee. reflexivity.
    + unfold submitHandler. rewrite Hr, Ee. reflexivity.
Qed.

Lemma submit_resumes_resets_form_witness :
  let clicked := mkState [somchai "a"] None draft_with_photo [] in
  let now := onEdit (somchai "a") clicked in
  let st' := mkState
               [somchai "a";
                {| Member.id := "id_1700000000000_4fzyo8";
                   Member.prefix := Nai;
                   Member.firstName := "Somchai";
                   Member.lastName := "Sukjai";
                   Member.photo := Some "data:image/png;base64,AAAA";
                   Member.workHistory := "MP since 2019";
                   Member.ministerPosition := Some "";
                   Member.ministry := Some "";
                   Member.party := "Demo Party" |}]
               (Some "a") initialValues [] in
  memberSchema (form clicked) = inr (parsed draft_with_photo Nai) /\
  submit_resumes env0 clicked (parsed draft_with_photo Nai) now = Applied st' /\
  form st' = initialValues /\ errors st' = [] /\
  (truthy (editingId clicked) = true -> editingId st' = None) /\
  (truthy (editingId clicked) = false -> editingId st' = Some "a") /\
  (now = clicked ->
   Creating st' /\ submitHandler env0 clicked (parsed draft_with_photo Nai) = Applied st').
Proof.
  intros clicked now st'. split; [reflexivity|]. split; [reflexivity|].
  exact (submit_resumes_resets_form env0 clicked now st' (parsed draft_with_photo Nai) eq_refl).
Defined.

(** X8. Whatever the outcome of a submit, the ids of the collection are the
    ids before, in the same order, possibly followed by the generated id;
    distinct ids stay distinct when the generated id is new. *)
Theorem onSubmit_keeps_existing_ids (env : Env) (st : State) :
  (ids (members (state_after st (onSubmit env st))) = ids (members st) \/
   ids (members (state_after st (onSubmit env st))) = (ids (members st) ++ [safeUUID env])%list) /\
  (NoDup (ids (members st)) -> ~ In (safeUUID env) (ids (members st)) ->
   NoDup (ids (members (state_after st (onSubmit env st))))).
Proof.
  assert (H : ids (members (state_after st (onSubmit env st))) = ids (members st) \/
              ids (members (state_after st (onSubmit env st))) =
              (ids (members st) ++ [safeUUID env])%list).
  { destruct (onSubmit env st) as [issues | st' | msg] eqn:H; simpl; auto.
    destruct (onSubmit_Applied_inv env st st' H)
      as (values & dataUrl & _ & _ & _ & _ & [(i & _ & _ & Hm) | (_ & _ & Hm)]); rewrite Hm.
    - left. apply update_ids.
    - right. unfold create. rewrite ids_app. reflexivity. }
  split; [exact H|]. intros Hnd Hfresh.
  destruct H as [-> | ->]; [exact Hnd | apply NoDup_snoc; assumption].
Qed.

(** X9. The text of the submit button tells what an applied submit does:
    under the save label the ids are unchanged, under the add label one id is
    appended. *)
Theorem submit_label_tells_the_branch (env : Env) (st st' : State) :
  onSubmit env st = Applied st' ->
  (submit_label st = "บันทึกการแก้ไข" /\ ids (members st') = ids (members st)) \/
  (submit_label st = "เพิ่มสมาชิก" /\
   ids (members st') = (ids (members st) ++ [safeUUID env])%list).
Proof.
  intros H. destruct (onSubmit_Applied_inv env st st' H)
    as (values & dataUrl & _ & _ & _ & _ & [(i & [He Hi] & _ & Hm) | (Hc & _ & Hm)]);
    rewrite Hm; unfold submit_label.
  - left. rewrite He. simpl. apply String.eqb_neq in Hi. rewrite Hi. simpl.
    split; [reflexivity | apply update_ids].
  - right. unfold Creating in Hc. rewrite Hc.
    split; [reflexivity|]. unfold create. rewrite ids_app. reflexivity.
Qed.

Lemma submit_label_tells_the_branch_witness :
  onSubmit env0 creating_without_photo =
  Applied (mkState [somchai "id_1700000000000_4fzyo8"] None initialValues []) /\
  ((submit_label creating_without_photo = "บันทึกการแก้ไข" /\
    ids [somchai "id_1700000000000_4fzyo8"] = ids []) \/
   (submit_label creating_without_photo = "เพิ่มสมาชิก" /\
    ids [somchai "id_1700000000000_4fzyo8"] = (ids [] ++ [safeUUID env0])%list)).
Proof.
  split; [reflexivity|].
  exact (submit_label_tells_the_branch env0 creating_without_photo
           (mkState [somchai "id_1700000000000_4fzyo8"] None initialValues []) eq_refl).
Defined.

(** ** What the collection keeps *)

Lemma update_satisfies_schema (i : string) (d : Draft) (values : MemberFormValues)
    (dataUrl : option string) (prev : list Member) :
  memberSchema d = inr values ->
  Forall satisfies_schema prev ->
  Forall satisfies_schema (update i values dataUrl prev).
Proof.
  intros Hv Hp. apply memberSchema_inr in Hv.
  destruct Hv as (p & _ & -> & Hf & Hl & Hw & Hy).
  unfold update. apply Forall_map. revert Hp. apply Forall_impl.
  intros m Hm. destruct (Member.id m =? i); [|exact Hm].
  unfold satisfies_schema; simpl. auto.
Qed.

Lemma create_satisfies_schema (env : Env) (d : Draft) (values : MemberFormValues)
    (dataUrl : option string) (prev : list Member) :
  memberSchema d = inr values ->
  Forall satisfies_schema prev ->
  Forall satisfies_schema (create env values dataUrl prev).
Proof.
  intros Hv Hp. apply memberSchema_inr in Hv.
  destruct Hv as (p & _ & -> & Hf & Hl & Hw & Hy).
  unfold create. apply Forall_app. split; [exact Hp|].
  constructor; [|constructor]. unfold satisfies_schema; simpl. auto.
Qed.

Lemma delete_satisfies_schema (i : string) (prev : list Member) :
  Forall satisfies_schema prev -> Forall satisfies_schema (delete i prev).
Proof.
  rewrite !Forall_forall. intros H m Hm. apply delete_In in Hm. apply H, Hm.
Qed.

Lemma onDelete_members (i : string) (st : State) :
  members (onDelete i st) = delete i (members st).
Proof. unfold onDelete. destruct (editing_is (editingId st) i); reflexivity. Qed.

Lemma onSubmit_satisfies_schema (env : Env) (st : State) :
  Forall satisfies_schema (members st) ->
  Forall satisfies_schema (members (state_after st (onSubmit env st))).
Proof.
  intros Hp. destruct (onSubmit env st) as [issues | st' | msg] eqn:H; simpl; trivial.
  destruct (onSubmit_Applied_inv env st st' H)
    as (values & dataUrl & Hv & _ & _ & _ & [(i & _ & _ & Hm) | (_ & _ & Hm)]); rewrite Hm.
  - eapply update_satisfies_schema; eassumption.
  - eapply create_satisfies_schema; eassumption.
Qed.

(** X10. If the records the page starts with satisfy the schema, so do the
    records of every state the user can reach. *)
Theorem reachable_members_satisfy_schema (st0 st : State) :
  Forall satisfies_schema (members st0) ->
  reachable st0 st ->
  Forall satisfies_schema (members st).
Proof.
  intros H0. induction 1 as [| st d reported _ IH | st env _ IH | st m _ IH Hin
                            | st m _ IH Hin | st _ IH]; simpl; trivial.
  - apply onSubmit_satisfies_schema. exact IH.
  - rewrite onDelete_members. apply delete_satisfies_schema. exact IH.
Qed.

Lemma reachable_members_satisfy_schema_witness :
  Forall satisfies_schema (members creating_without_photo) /\
  reachable creating_without_photo
    (state_after creating_without_photo (onSubmit env0 creating_without_photo)) /\
  Forall satisfies_schema
    (members (state_after creating_without_photo (onSubmit env0 creating_without_photo))).
Proof.
  split; [constructor|]. split; [apply reach_submit, reach_start|].
  exact (reachable_members_satisfy_schema creating_without_photo _ (Forall_nil _)
           (reach_submit _ _ env0 (reach_start _))).
Defined.

Lemma onSubmit_editing_listed (env : Env) (st : State) :
  editing_listed st -> editing_listed (state_after st (onSubmit env st)).
Proof.
  intros Hl. destruct (onSubmit env st) as [issues | st' | msg] eqn:H; simpl; trivial.
  destruct (onSubmit_Applied_inv env st st' H)
    as (values & dataUrl & _ & _ & _ & _ & [(i & _ & Hn & _) | (_ & Hn & Hm)]);
    intros j Hj.
  - congruence.
  - rewrite Hn in Hj. rewrite Hm. unfold create. rewrite ids_app, in_app_iff.
    left. apply Hl, Hj.
Qed.

Lemma onDelete_editing_listed (i : string) (st : State) :
  editing_listed st -> editing_listed (onDelete i st).
Proof.
  intros Hl j Hj. rewrite onDelete_members.
  unfold onDelete in Hj.
  destruct (editingId st) as [e|] eqn:Ee; simpl in Hj; [|discriminate].
  destruct (String.eqb_spec e i) as [-> | Hne]; simpl in Hj; [discriminate|].
  inversion Hj; subst j.
  specialize (Hl e Ee). unfold ids in *. rewrite in_map_iff in *.
  destruct Hl as [m [Hm Hin]]. exists m. split; [exact Hm|].
  apply delete_In. split; [exact Hin | congruence].
Qed.

(** X11. In every state the user can reach, the id being edited is the id
    of a record of the collection. *)
Theorem reachable_editing_listed (st0 st : State) :
  editing_listed st0 ->
  reachable st0 st ->
  editing_listed st.
Proof.
  intros H0. induction 1 as [| st d reported _ IH | st env _ IH | st m _ IH Hin
                            | st m _ IH Hin | st _ IH]; trivial.
  - apply onSubmit_editing_listed. exact IH.
  - intros j Hj. simpl in Hj. inversion Hj; subst j. simpl.
    unfold ids. apply in_map. exact Hin.
  - apply onDelete_editing_listed. exact IH.
  - intros j Hj. discriminate Hj.
Qed.

Lemma reachable_editing_listed_witness :
  editing_listed clash_state /\
  reachable clash_state (onEdit (somchai "id_1700000000000_4fzyo8") clash_state) /\
  editing_listed (onEdit (somchai "id_1700000000000_4fzyo8") clash_state).
Proof.
  assert (H0 : editing_listed clash_state) by (intros i Hi; discriminate Hi).
  assert (Hr : reachable clash_state (onEdit (somchai "id_1700000000000_4fzyo8") clash_state))
    by (apply reach_edit; [apply reach_start | left; reflexivity]).
  split; [exact H0|]. split; [exact Hr|].
  exact (reachable_editing_listed clash_state _ H0 Hr).
Defined.

(** ** Edit, then save *)

Lemma NoDup_ids_inj (ms : list Member) (a b : Member) :
  NoDup (ids ms) -> In a ms -> In b ms -> Member.id a = Member.id b -> a = b.
Proof.
  induction ms as [|m ms IH]; simpl; intros Hnd Ha Hb Hab; [contradiction|].
  inversion Hnd as [|x l Hx Hl]; subst.
  destruct Ha as [-> | Ha], Hb as [-> | Hb]; trivial.
  - exfalso. apply Hx. rewrite Hab. apply in_map. exact Hb.
  - exfalso. apply Hx. rewrite <- Hab. apply in_map. exact Ha.
  - apply IH; assumption.
Qed.

Lemma update_with_own_values (m : Member) (st : State) (prev : list Member) :
  NoDup (ids prev) -> In m prev ->
  Member.ministerPosition m <> None -> Member.ministry m <> None ->
  update (Member.id m) (parsed (form (onEdit m st)) (Member.prefix m)) None prev = prev.
Proof.
  intros Hnd Hin Hmp Hmn. unfold update.
  rewrite <- (map_id prev) at 2. apply map_ext_in. intros m' Hin'.
  destruct (String.eqb_spec (Member.id m') (Member.id m)) as [He | He]; [|reflexivity].
  assert (m' = m) as -> by (eapply NoDup_ids_inj; eassumption).
  destruct m as [i p fn ln ph wh [mp|] [mn|] pa]; simpl in *; congruence.
Qed.

(** X12. Clicking edit on a listed record and saving at once leaves the
    collection as it was, when ids are distinct, the id is not empty, and the
    record satisfies the schema and has both ministerial fields. *)
Theorem edit_then_save_changes_nothing (env : Env) (st : State) (m : Member) :
  In m (members st) ->
  NoDup (ids (members st)) ->
  Member.id m <> "" ->
  satisfies_schema m ->
  Member.ministerPosition m <> None -> Member.ministry m <> None ->
  onSubmit env (onEdit m st) =
  Applied {| members := members st;
             editingId := None;
             form := initialValues;
             errors := [] |}.
Proof.
  intros Hin Hnd Hi (Hf & Hl & Hw & Hy) Hmp Hmn.
  rewrite (onSubmit_editing env (onEdit m st) (Member.id m)
             (parsed (form (onEdit m st)) (Member.prefix m)) None).
  - simpl members. rewrite update_with_own_values; trivial.
  - apply onEdit_Editing. exact Hi.
  - apply onEdit_draft_valid; assumption.
  - reflexivity.
Qed.

Lemma edit_then_save_changes_nothing_witness :
  In (somchai "b") [somchai "a"; somchai "b"] /\
  NoDup (ids [somchai "a"; somchai "b"]) /\
  satisfies_schema (somchai "b") /\
  onSubmit env0 (onEdit (somchai "b") (mkState [somchai "a"; somchai "b"] None initialValues [])) =
  Applied {| members := [somchai "a"; somchai "b"];
             editingId := None;
             form := initialValues;
             errors := [] |}.
Proof.
  assert (Hin : In (somchai "b") [somchai "a"; somchai "b"]) by (right; left; reflexivity).
  assert (Hnd : NoDup (ids [somchai "a"; somchai "b"])).
  { simpl. constructor.
    - simpl. intros [H | []]. discriminate H.
    - constructor; [intros [] | constructor]. }
  assert (Hs : satisfies_schema (somchai "b")) by (repeat split; discriminate).
  split; [exact Hin|]. split; [exact Hnd|]. split; [exact Hs|].
  refine (edit_then_save_changes_nothing env0
            (mkState [somchai "a"; somchai "b"] None initialValues [])
            (somchai "b") Hin Hnd _ Hs _ _); discriminate.
Defined.

(** X21. A record whose id is the empty string cannot be updated: clicking
    edit on it and saving appends a new record made from its values and
    leaves the record itself in place. *)
Theorem edit_empty_id_then_save_appends (env : Env) (st : State) (m : Member) :
  Member.id m = "" ->
  satisfies_schema m ->
  onSubmit env (onEdit m st) =
  Applied {| members := create env (parsed (form (onEdit m st)) (Member.prefix m)) None
                          (members st);
             editingId := Some "";
             form := initialValues;
             errors := [] |}.
Proof.
  intros Hi (Hf & Hl & Hw & Hy).
  rewrite (onSubmit_creating env (onEdit m st)
             (parsed (form (onEdit m st)) (Member.prefix m)) None).
  - simpl. rewrite Hi. reflexivity.
  - unfold Creating. simpl. rewrite Hi. reflexivity.
  - apply onEdit_draft_valid; assumption.
  - reflexivity.
Qed.

Lemma edit_empty_id_then_save_appends_witness :
  Member.id (somchai "") = "" /\
  satisfies_schema (somchai "") /\
  onSubmit env0 (onEdit (somchai "") (mkState [somchai ""] None initialValues [])) =
  Applied {| members := [somchai ""; somchai "id_1700000000000_4fzyo8"];
             editingId := Some "";
             form := initialValues;
             errors := [] |}.
Proof.
  assert (Hs : satisfies_schema (somchai "")) by (repeat split; discriminate).
  split; [reflexivity|]. split; [exact Hs|].
  exact (edit_empty_id_then_save_appends env0 (mkState [somchai ""] None initialValues [])
           (somchai "") eq_refl Hs).
Defined.

(** ** Delete and update together *)

(** X13. [delete] removes as many records as there are occurrences of the id
    in the collection. *)
Theorem delete_removes_count (i : string) (prev : list Member) :
  length (delete i prev) + count_occ string_dec (ids prev) i = length prev.
Proof.
  induction prev as [|m prev IH]; [reflexivity|].
  rewrite delete_cons. simpl ids. simpl count_occ. simpl length.
  destruct (string_dec (Member.id m) i) as [He | He].
  - apply String.eqb_eq in He. rewrite He. lia.
  - apply String.eqb_neq in He. rewrite He. simpl. lia.
Qed.

(** X14. Deleting the id of a record just created gives back the collection
    before the create, when that id was new. *)
Theorem create_then_delete (env : Env) (values : MemberFormValues) (dataUrl : option string)
    (prev : list Member) :
  ~ In (safeUUID env) (ids prev) ->
  delete (safeUUID env) (create env values dataUrl prev) = prev.
Proof.
  intros H. unfold create. rewrite delete_app, delete_cons. simpl.
  rewrite String.eqb_refl, delete_absent by assumption.
  unfold delete. simpl. apply app_nil_r.
Qed.

Lemma create_then_delete_witness :
  ~ In (safeUUID env0) (ids [somchai "a"]) /\
  delete "id_1700000000000_4fzyo8"
    (create env0 (parsed draft_without_photo Nai) None [somchai "a"]) = [somchai "a"].
Proof.
  assert (H : ~ In (safeUUID env0) (ids [somchai "a"])).
  { simpl. intros [H | []]. discriminate H. }
  split; [exact H|].
  exact (create_then_delete env0 (parsed draft_without_photo Nai) None [somchai "a"] H).
Defined.

(** X15. Two deletes commute, and a delete commutes with an update. *)
Theorem delete_commutes (i j : string) (values : MemberFormValues) (dataUrl : option string)
    (prev : list Member) :
  delete i (delete j prev) = delete j (delete i prev) /\
  delete j (update i values dataUrl prev) = update i values dataUrl (delete j prev).
Proof.
  split.
  - induction prev as [|m prev IH]; [reflexivity|].
    rewrite !delete_cons.
    destruct (Member.id m =? j) eqn:Ej, (Member.id m =? i) eqn:Ei;
      rewrite ?delete_cons, ?Ej, ?Ei, IH; reflexivity.
  - induction prev as [|m prev IH]; [reflexivity|].
    rewrite delete_cons. simpl update. rewrite delete_cons.
    destruct (Member.id m =? i) eqn:Ei; simpl Member.id;
      destruct (Member.id m =? j) eqn:Ej; simpl; rewrite ?Ei; fold (update i values dataUrl prev);
      fold (update i values dataUrl (delete j prev)); rewrite IH; reflexivity.
Qed.

(** X16. [update] keeps the ids, hence their distinctness, and applying the
    same update twice is applying it once. *)
Theorem update_keeps_ids_and_is_idempotent (i : string) (values : MemberFormValues)
    (dataUrl : option string) (prev : list Member) :
  ids (update i values dataUrl prev) = ids prev /\
  (NoDup (ids prev) -> NoDup (ids (update i values dataUrl prev))) /\
  update i values dataUrl (update i values dataUrl prev) = update i values dataUrl prev.
Proof.
  split; [apply update_ids|]. split; [rewrite update_ids; trivial|].
  unfold update. rewrite map_map. apply map_ext. intros m.
  destruct (Member.id m =? i) eqn:E; simpl; rewrite E; [|reflexivity].
  destruct dataUrl; reflexivity.
Qed.

(** X17. The ids after a delete are the ids before without the deleted one,
    in the same order; distinct ids stay distinct. *)
Theorem delete_filters_ids (i : string) (prev : list Member) :
  ids (delete i prev) = filter (fun x => negb (x =? i)) (ids prev) /\
  (NoDup (ids prev) -> NoDup (ids (delete i prev))).
Proof.
  assert (H : ids (delete i prev) = filter (fun x => negb (x =? i)) (ids prev)).
  { induction prev as [|m prev IH]; [reflexivity|].
    rewrite delete_cons. simpl. destruct (Member.id m =? i); simpl; rewrite IH; reflexivity. }
  split; [exact H|]. intros Hnd. rewrite H. apply NoDup_filter. exact Hnd.
Qed.

(** ** The snapshot, from one run of the page to the next *)

(** X18. When access to the storage is refused, persisting is skipped and
    the next start is empty.  On an accessible storage with room for the text,
    the snapshot becomes the text of the collection, whatever was stored
    before, and the next start reads the collection back, record for record.
    Without room (QuotaExceededError) the storage keeps what it held: the
    older snapshot stays and the state and the storage differ. *)
Theorem start_after_persist (room : string -> bool) (raw : option string)
    (ms : list Member) :
  (persist room storage_refused ms = storage_refused /\
   initial_members (persist room storage_refused ms) = Normal (JArray [])) /\
  (room (JSON_stringify ms) = true ->
   persist room (storage_entry raw) ms = storage_entry (Some (JSON_stringify ms)) /\
   initial_members (persist room (storage_entry raw) ms) = Normal (JSON_of_Members ms) /\
   Members_of_JSON (JSON_of_Members ms) = Some ms) /\
  (room (JSON_stringify ms) = false ->
   persist room (storage_entry raw) ms = storage_entry raw /\
   initial_members (persist room (storage_entry raw) ms) =
   initial_members (storage_entry raw)).
Proof.
  split; [split; reflexivity|]. split.
  - intros H. split; [apply persist_with_room; exact H|].
    split; [apply initial_members_after_persist; exact H|].
    apply Members_of_JSON_of_Members.
  - intros H. assert (Hp : persist room (storage_entry raw) ms = storage_entry raw).
    { unfold persist, setItem. rewrite H. reflexivity. }
    rewrite Hp. split; reflexivity.
Qed.

(** X19. The initializer does not look at the shape of what it parsed: any
    text [JSON.parse] accepts becomes the state, array of members or not. *)
Theorem initial_members_keeps_parsed_value (raw : string) (v : JSON) :
  JSON_parse raw = Some v ->
  initial_members (storage_entry (Some raw)) = Normal v.
Proof.
  intros H. unfold initial_members. simpl.
  destruct raw as [|c raw]; [discriminate H|].
  simpl. unfold JSON_parse_or_throw. rewrite H. reflexivity.
Qed.

Lemma initial_members_keeps_parsed_value_witness :
  JSON_parse "{}" = Some (JObject []) /\
  initial_members (storage_entry (Some "{}")) = Normal (JObject []) /\
  Members_of_JSON (JObject []) = None.
Proof.
  split; [reflexivity|]. split; [|reflexivity].
  exact (initial_members_keeps_parsed_value "{}" (JObject []) eq_refl).
Defined.

(** ** The preview *)

Lemma remove_head_fresh (u : ObjectURLs) (url : nat) :
  fresh u -> next u <= url -> remove Nat.eq_dec url (url :: live u) = live u.
Proof.
  intros Hf Hu. simpl. destruct (Nat.eq_dec url url) as [_ | Hne]; [|congruence].
  apply notin_remove. intros Hin. apply Hf in Hin. lia.
Qed.

Lemma run_cleanup_holds_one (u : ObjectURLs) (pu : Preview * ObjectURLs) :
  fresh u -> holds_one u pu ->
  live (run_cleanup (fst pu) (snd pu)) = live u /\
  next (run_cleanup (fst pu) (snd pu)) = next (snd pu).
Proof.
  intros Hf (_ & _ & Hc). unfold run_cleanup.
  destruct (cleanup (fst pu)) as [url|]; [|auto].
  destruct Hc as [Hl Hu]. unfold revokeObjectURL; simpl. rewrite Hl.
  split; [apply remove_head_fresh; assumption | reflexivity].
Qed.

Lemma preview_effect_holds_one (u u1 : ObjectURLs) (file : option File) :
  live u1 = live u -> next u <= next u1 -> holds_one u (preview_effect file u1).
Proof.
  intros Hl Hn. unfold holds_one, preview_effect. destruct file as [f|]; simpl.
  - repeat split; trivial; try lia. congruence.
  - repeat split; trivial.
Qed.

Lemma file_changed_holds_one (u : ObjectURLs) (file : option File)
    (pu : Preview * ObjectURLs) :
  fresh u -> holds_one u pu -> holds_one u (file_changed file pu).
Proof.
  intros Hf H. destruct (run_cleanup_holds_one u pu Hf H) as [Hl Hn].
  unfold file_changed. apply preview_effect_holds_one; [exact Hl|].
  rewrite Hn. apply H.
Qed.

Lemma mounted_holds_one (u : ObjectURLs) (first : option File)
    (changes : list (option File)) :
  fresh u -> holds_one u (mounted first changes u).
Proof.
  intros Hf. unfold mounted.
  assert (H0 : holds_one u (preview_effect first u))
    by (apply preview_effect_holds_one; [reflexivity | lia]).
  revert H0. generalize (preview_effect first u).
  induction changes as [|file changes IH]; intros pu H; simpl; [exact H|].
  apply IH. apply file_changed_holds_one; assumption.
Qed.

(** X20. Through any sequence of chosen files the preview holds at most one
    object URL, the one it shows, and unmounting releases it: the live URLs
    are again those from before the mount. *)
Theorem preview_urls_never_leak (u : ObjectURLs) (first : option File)
    (changes : list (option File)) :
  fresh u ->
  (forall url, preview (fst (mounted first changes u)) = Some url <->
               live (snd (mounted first changes u)) = url :: live u) /\
  length (live (snd (mounted first changes u))) <= S (length (live u)) /\
  live (unmount (mounted first changes u)) = live u.
Proof.
  intros Hf. pose proof (mounted_holds_one u first changes Hf) as H.
  destruct (run_cleanup_holds_one u _ Hf H) as [Hl _].
  destruct H as (Hp & Hn & Hc). split; [|split; [|exact Hl]].
  - intros url. rewrite Hp.
    destruct (cleanup (fst (mounted first changes u))) as [url'|].
    + destruct Hc as [Hc _]. rewrite Hc. split; congruence.
    + rewrite Hc. split; [discriminate|].
      intros E. exfalso. apply (f_equal (@length nat)) in E. simpl in E. lia.
  - destruct (cleanup (fst (mounted first changes u))) as [url'|].
    + destruct Hc as [Hc _]. rewrite Hc. simpl. lia.
    + rewrite Hc. lia.
Qed.

Lemma preview_urls_never_leak_witness :
  fresh (mkObjectURLs [0; 2] 3) /\
  live (unmount (mounted (Some (mkFile None)) [None; Some (mkFile (Some "data:,"))]
                   (mkObjectURLs [0; 2] 3))) = [0; 2].
Proof.
  assert (Hf : fresh (mkObjectURLs [0; 2] 3)).
  { intros x [H | [H | []]]; simpl; lia. }
  split; [exact Hf|].
  exact (proj2 (proj2 (preview_urls_never_leak (mkObjectURLs [0; 2] 3)
                         (Some (mkFile None)) [None; Some (mkFile (Some "data:,"))] Hf))).
Defined.
